(** * Dingg chat: the conversation UI state and the realtime delivery core

    The first half of this development embeds the state logic of the
    [ChatLayout] React component (components/conversation/ChatLayout.tsx):
    the composer's send handler, the clear-unread effect, the sidebar
    filter and the day grouping of a thread.  The second half models the
    backend operations that exist only as a design (session registry,
    message pipeline, cursor pagination, presence tracker). *)

From Stdlib Require Import List ZArith NArith Bool Lia Permutation Sorted.
From Stdlib Require Decimal DecimalN Ascii String.
From stdpp Require Import gmap list sorting.
Import ListNotations.

Local Open Scope Z_scope.

(** ** JavaScript strings

    A JS string is a sequence of UTF-16 code units. *)

Definition jsstring := list N.

Definition jsstring_eqb (a b : jsstring) : bool := bool_decide (a = b).

(** ECMAScript [WhiteSpace] and [LineTerminator] code points, the characters
    removed by [String.prototype.trim].  All of them are in the BMP, so the
    test is on single code units. *)
Definition isWhiteSpace (c : N) : bool :=
  ((c =? 9) || (c =? 10) || (c =? 11) || (c =? 12) || (c =? 13) || (c =? 32)
   || (c =? 160) || (c =? 5760)
   || ((8192 <=? c) && (c <=? 8202))
   || (c =? 8232) || (c =? 8233) || (c =? 8239) || (c =? 8287)
   || (c =? 12288) || (c =? 65279))%N.

Fixpoint trimStart (s : jsstring) : jsstring :=
  match s with
  | [] => []
  | c :: s' => if isWhiteSpace c then trimStart s' else s
  end.

Definition trimEnd (s : jsstring) : jsstring := rev (trimStart (rev s)).

Definition trim (s : jsstring) : jsstring := trimEnd (trimStart s).

(** [s.startsWith(p)] and [s.includes(sub)]. *)
Fixpoint startsWith (s p : jsstring) : bool :=
  match p, s with
  | [], _ => true
  | _ :: _, [] => false
  | a :: p', b :: s' => (a =? b)%N && startsWith s' p'
  end.

Fixpoint includes (s sub : jsstring) : bool :=
  startsWith s sub ||
  match s with
  | [] => false
  | _ :: s' => includes s' sub
  end.

(** ** Types of ChatLayout.tsx *)

Inductive Sender := me | them.

Inductive MsgStatus := sent | delivered | seen.

Record Message := {
  m_id : jsstring;
  m_sender : Sender;
  m_text : jsstring;
  m_at : jsstring;                (* ISO timestamp *)
  m_status : option MsgStatus
}.

(** [id] is a JS number used as a key; the chats carry integer ids. *)
Record Chat := {
  c_id : Z;
  c_name : jsstring;
  c_avatar : option jsstring;
  c_online : option bool;
  c_pinned : option bool;
  c_unread : option Z;
  c_messages : list Message
}.

(** Truthiness of an optional boolean field ([c.pinned ? 1 : 0]). *)
Definition truthy (b : option bool) : bool :=
  match b with Some true => true | _ => false end.

(** The component's state hooks. *)
Record UIState := {
  query : jsstring;
  chats : list Chat;
  selectedId : Z;
  newMessage : jsstring;
  isTyping : bool
}.

(** The error taxonomy named by the design.  The component itself defines
    no error values. *)
Inductive ErrorKind :=
  Forbidden | InvalidArgument | NotFound | Timeout | Unavailable.

(** How a call of a JS function ends: it returns, or it throws. *)
Inductive completion := Returned | Thrown (e : ErrorKind).

(** [chats.find((c) => c.id === selectedId)] *)
Definition selectedChat (st : UIState) : option Chat :=
  List.find (fun c => c_id c =? selectedId st) (chats st).

(** The effect "Clear unread when opening chat":
    [prev.map((c) => (c.id === selectedId ? { ...c, unread: 0 } : c))] *)
Definition clearUnreadChat (sel : Z) (c : Chat) : Chat :=
  if c_id c =? sel then
    {| c_id := c_id c; c_name := c_name c; c_avatar := c_avatar c;
       c_online := c_online c; c_pinned := c_pinned c;
       c_unread := Some 0; c_messages := c_messages c |}
  else c.

Definition clearUnread (sel : Z) (prev : list Chat) : list Chat :=
  map (clearUnreadChat sel) prev.

(** [{ ...c, messages: [...c.messages, msg] }] for the selected chat. *)
Definition appendMessage (sel : Z) (msg : Message) (c : Chat) : Chat :=
  if c_id c =? sel then
    {| c_id := c_id c; c_name := c_name c; c_avatar := c_avatar c;
       c_online := c_online c; c_pinned := c_pinned c;
       c_unread := c_unread c; c_messages := c_messages c ++ [msg] |}
  else c.

(** The message built by [handleSend]; [uuid] is what the id generator
    returned and [now] is [new Date().toISOString()]. *)
Definition mkMessage (uuid now text : jsstring) : Message :=
  {| m_id := uuid; m_sender := me; m_text := text; m_at := now;
     m_status := Some sent |}.

(** [handleSend]: an empty trimmed text returns at the guard; otherwise the
    message is appended to the selected chat, the composer is cleared and
    the typing flag is reset.  The function has no [throw]. *)
Definition handleSend (uuid now : jsstring) (st : UIState)
  : completion * UIState :=
  let text := trim (newMessage st) in
  match text with
  | [] => (Returned, st)
  | _ :: _ =>
      let msg := mkMessage uuid now text in
      (Returned,
       {| query := query st;
          chats := map (appendMessage (selectedId st) msg) (chats st);
          selectedId := selectedId st;
          newMessage := [];
          isTyping := false |})
  end.

(** The textarea's [onChange]: [setNewMessage(v); setIsTyping(v.length > 0)]. *)
Definition onChange (v : jsstring) (st : UIState) : UIState :=
  {| query := query st; chats := chats st; selectedId := selectedId st;
     newMessage := v;
     isTyping := match v with [] => false | _ => true end |}.

(** One send by the user: type [txt] into the composer, then press send. *)
Record SendInput := { si_text : jsstring; si_uuid : jsstring; si_now : jsstring }.

Definition typeAndSend (st : UIState) (i : SendInput) : UIState :=
  snd (handleSend (si_uuid i) (si_now i) (onChange (si_text i) st)).

Definition sendAll (st : UIState) (inputs : list SendInput) : UIState :=
  fold_left typeAndSend inputs st.

Definition sentMessage (i : SendInput) : Message :=
  mkMessage (si_uuid i) (si_now i) (trim (si_text i)).

(** ** Sidebar filter *)

(** [Array.prototype.sort] with a comparator.  The language guarantees a
    stable sort; it is modelled by a stable insertion sort that puts [x]
    before the first [y] with [cmp x y <= 0]. *)
Section Sort.
Context {A : Type} (cmp : A -> A -> Z).

Fixpoint sortInsert (x : A) (l : list A) : list A :=
  match l with
  | [] => [x]
  | y :: l' => if cmp x y <=? 0 then x :: l else y :: sortInsert x l'
  end.

Definition sort (l : list A) : list A := fold_right sortInsert [] l.
End Sort.

(** [(a, b) => (b.pinned ? 1 : 0) - (a.pinned ? 1 : 0)] *)
Definition pinnedCmp (a b : Chat) : Z :=
  (if truthy (c_pinned b) then 1 else 0) - (if truthy (c_pinned a) then 1 else 0).

Definition isPinned (c : Chat) : bool := truthy (c_pinned c).

Section Filtered.
(** [String.prototype.toLowerCase] is the runtime's Unicode case mapping. *)
Variable toLowerCase : jsstring -> jsstring.

(** [c.name.toLowerCase().includes(query.toLowerCase())] *)
Definition matchesQuery (q : jsstring) (c : Chat) : bool :=
  includes (toLowerCase (c_name c)) (toLowerCase q).

(** [chats.slice().sort(...).filter(...)] *)
Definition filtered (cs : list Chat) (q : jsstring) : list Chat :=
  List.filter (matchesQuery q) (sort pinnedCmp cs).
End Filtered.

(** ** Day grouping *)

Record Group := { day : jsstring; items : list Message }.

Section Groups.
(** [dayLabel(iso)] reads the wall clock to decide between "Today",
    "Yesterday" and dd/mm/yyyy; during one computation of the groups it is
    a function of the timestamp alone. *)
Variable dayLabel : jsstring -> jsstring.

(** One iteration of the [for (const m of selectedChat.messages)] loop.
    [last.items[0].at] on an empty group would read a property of
    [undefined], which throws: [None]. *)
Definition groupsStep (out : list Group) (m : Message) : option (list Group) :=
  let lbl := dayLabel (m_at m) in
  match last out with
  | None => Some (out ++ [{| day := lbl; items := [m] |}])
  | Some lst =>
      match items lst with
      | [] => None
      | m0 :: _ =>
          if negb (jsstring_eqb (dayLabel (m_at m0)) lbl)
          then Some (out ++ [{| day := lbl; items := [m] |}])
          else Some (removelast out ++
                     [{| day := day lst; items := items lst ++ [m] |}])
      end
  end.

Definition groupsFrom (out : list Group) (ms : list Message)
  : option (list Group) :=
  fold_left (fun acc m => match acc with
                          | Some o => groupsStep o m
                          | None => None
                          end) ms (Some out).

Definition groups (ms : list Message) : option (list Group) :=
  groupsFrom [] ms.
(** What the loop maintains: a group is never empty and carries the label
    of each of its items. *)
Definition wfGroup (g : Group) : Prop :=
  items g <> [] /\ Forall (fun m => dayLabel (m_at m) = day g) (items g).

End Groups.

(** ** The rest of ChatLayout.tsx *)

(** String literals of the source, as code units. *)
Module Lit.
Import Stdlib.Strings.Ascii Stdlib.Strings.String.

Definition jsstr (s : string) : jsstring :=
  List.map N_of_ascii (list_ascii_of_string s).

Definition Today : jsstring := jsstr "Today".
Definition Yesterday : jsstring := jsstr "Yesterday".
Definition NaN : jsstring := jsstr "NaN".
Definition StartAConversation : jsstring := jsstr "Start a conversation".
Definition Enter : jsstring := jsstr "Enter".
Definition chatsPath : jsstring := jsstr "/chats".
Definition loginPath : jsstring := jsstr "/login".
End Lit.

(** *** cn *)

(** An argument of [cn]: [string | false | undefined]. *)
Inductive ClassArg :=
| ClsStr (s : jsstring)
| ClsFalse
| ClsUndefined.

(** [classes.filter(Boolean)]: [false], [undefined] and the empty string are
    falsy. *)
Fixpoint filterBoolean (classes : list ClassArg) : list jsstring :=
  match classes with
  | [] => []
  | ClsStr (c :: s) :: rest => (c :: s) :: filterBoolean rest
  | _ :: rest => filterBoolean rest
  end.

(** [Array.prototype.join(sep)] on strings. *)
Fixpoint join (sep : jsstring) (parts : list jsstring) : jsstring :=
  match parts with
  | [] => []
  | [p] => p
  | p :: rest => p ++ sep ++ join sep rest
  end.

(** [cn(...classes)]: [classes.filter(Boolean).join(" ")]. *)
Definition cn (classes : list ClassArg) : jsstring :=
  join [32%N] (filterBoolean classes).

(** How two class strings combine: a single space, only between two
    non-empty strings. *)
Definition spaced (a b : jsstring) : jsstring :=
  match a, b with
  | [], _ => b
  | _, [] => a
  | _, _ => a ++ [32%N] ++ b
  end.

(** *** Dates *)

(** A JS number that is an integer or NaN ([None]): what the getters of
    [Date] return. *)
Definition JsNum := option Z.

(** [a === b] on numbers: NaN is equal to nothing, itself included. *)
Definition numEq (a b : JsNum) : bool :=
  match a, b with
  | Some x, Some y => x =? y
  | _, _ => false
  end.

Fixpoint uintCodes (d : Decimal.uint) : jsstring :=
  match d with
  | Decimal.Nil => []
  | Decimal.D0 d => 48%N :: uintCodes d
  | Decimal.D1 d => 49%N :: uintCodes d
  | Decimal.D2 d => 50%N :: uintCodes d
  | Decimal.D3 d => 51%N :: uintCodes d
  | Decimal.D4 d => 52%N :: uintCodes d
  | Decimal.D5 d => 53%N :: uintCodes d
  | Decimal.D6 d => 54%N :: uintCodes d
  | Decimal.D7 d => 55%N :: uintCodes d
  | Decimal.D8 d => 56%N :: uintCodes d
  | Decimal.D9 d => 57%N :: uintCodes d
  end.

(** The string a template literal makes of a number: decimal digits with a
    leading minus sign, or "NaN". *)
Definition numToString (x : JsNum) : jsstring :=
  match x with
  | None => Lit.NaN
  | Some z =>
      if z <? 0 then 45%N :: uintCodes (N.to_uint (Z.to_N (- z)))
      else uintCodes (N.to_uint (Z.to_N z))
  end.

(** [pad]: [(x) => (x < 10 ? `0${x}` : `${x}`)]; [NaN < 10] is false. *)
Definition pad (x : JsNum) : jsstring :=
  match x with
  | Some z => if z <? 10 then 48%N :: numToString x else numToString x
  | None => numToString x
  end.

Section Dates.
(** [new Date(s)] read in local time: (full year, month from 0, day of the
    month), or [None] for an Invalid Date, whose getters all return NaN. *)
Variable localDate : jsstring -> option (Z * Z * Z).

(** [today.toISOString()] and [yesterday.toISOString()] as [dayLabel]
    computes them from the clock. *)
Variable nowISO : jsstring.
Variable yesterdayISO : jsstring.

Definition getFullYear (s : jsstring) : JsNum :=
  match localDate s with Some (y, _, _) => Some y | None => None end.

Definition getMonth (s : jsstring) : JsNum :=
  match localDate s with Some (_, m, _) => Some m | None => None end.

Definition getDate (s : jsstring) : JsNum :=
  match localDate s with Some (_, _, d) => Some d | None => None end.

(** [isSameDay(a, b)]: year, month and day of the month are [===]. *)
Definition isSameDay (a b : jsstring) : bool :=
  numEq (getFullYear a) (getFullYear b)
  && numEq (getMonth a) (getMonth b)
  && numEq (getDate a) (getDate b).

(** [dayLabel(iso)]: "Today", "Yesterday" or dd/mm/yyyy. *)
Definition dayLabel (iso : jsstring) : jsstring :=
  let yyyy := getFullYear iso in
  let mm := pad (match getMonth iso with Some m => Some (m + 1) | None => None end) in
  let dd := pad (getDate iso) in
  if isSameDay iso nowISO then Lit.Today
  else if isSameDay iso yesterdayISO then Lit.Yesterday
  else dd ++ [47%N] ++ mm ++ [47%N] ++ numToString yyyy.

(** The Date getters stay in their ranges: months 0 to 11, days 1 to 31. *)
Definition datesInRange : Prop :=
  forall s y m d, localDate s = Some (y, m, d) -> 0 <= m <= 11 /\ 1 <= d <= 31.

Definition validDate (s : jsstring) : Prop := localDate s <> None.
End Dates.

(** Adjacent groups never carry the same label. *)
Fixpoint adjacentDaysDiffer (gs : list Group) : Prop :=
  match gs with
  | g1 :: ((g2 :: _) as rest) => day g1 <> day g2 /\ adjacentDaysDiffer rest
  | _ => True
  end.

(** *** Sidebar rendering and previews *)

(** [chatPreview(c)]: the text of the last message, or a placeholder. *)
Definition chatPreview (c : Chat) : jsstring :=
  match last (c_messages c) with
  | Some m => m_text m
  | None => Lit.StartAConversation
  end.


(** *** Events of the component *)

(** The part of a keyboard event [onKeyDown] reads. *)
Record KeyEvent := { key : jsstring; shiftKey : bool }.

(** [onKeyDown]: plain Enter prevents the default and sends.  The first
    component tells whether [preventDefault] was called. *)
Definition onKeyDown (e : KeyEvent) (uuid now : jsstring) (st : UIState)
  : bool * UIState :=
  if jsstring_eqb (key e) Lit.Enter && negb (shiftKey e)
  then (true, snd (handleSend uuid now st))
  else (false, st).

(** The search box: [setQuery(e.target.value)]. *)
Definition setQuery (q : jsstring) (st : UIState) : UIState :=
  {| query := q; chats := chats st; selectedId := selectedId st;
     newMessage := newMessage st; isTyping := isTyping st |}.

(** A sidebar button: [setSelectedId(c.id)].  When the id changes, the
    effect keyed on [selectedId] runs and clears the unread count of the
    chat now selected; setting the same id again changes nothing. *)
Definition selectChat (id : Z) (st : UIState) : UIState :=
  if id =? selectedId st then st
  else {| query := query st; chats := clearUnread id (chats st);
          selectedId := id; newMessage := newMessage st;
          isTyping := isTyping st |}.

(** The state after the first render: [useState(chats[0].id)] selects the
    first chat (an empty list would throw), and the clear-unread effect
    has run once. *)
Definition mount (cs : list Chat) : option UIState :=
  match cs with
  | [] => None
  | c :: _ => Some {| query := []; chats := clearUnread (c_id c) cs;
                      selectedId := c_id c; newMessage := [];
                      isTyping := false |}
  end.

(** How a chat may differ from an earlier version of itself: messages
    were appended and the unread count was kept or reset to 0; nothing else
    has changed. *)
Definition chatEvolved (c c' : Chat) : Prop :=
  c_id c' = c_id c /\ c_name c' = c_name c /\ c_avatar c' = c_avatar c
  /\ c_online c' = c_online c /\ c_pinned c' = c_pinned c
  /\ (exists extra, c_messages c' = c_messages c ++ extra)
  /\ (c_unread c' = c_unread c \/ c_unread c' = Some 0).

Section Events.
Variable toLowerCase : jsstring -> jsstring.

(** The two sections of the sidebar:
    [filtered.filter((c) => c.pinned)] and [filtered.filter((c) => !c.pinned)]. *)
Definition pinnedSection (st : UIState) : list Chat :=
  List.filter isPinned (filtered toLowerCase (chats st) (query st)).

Definition chatsSection (st : UIState) : list Chat :=
  List.filter (fun c => negb (isPinned c)) (filtered toLowerCase (chats st) (query st)).

(** The buttons of the sidebar from top to bottom. *)
Definition sidebar (st : UIState) : list Chat :=
  pinnedSection st ++ chatsSection st.

(** What the user can do. *)
Inductive UIEvent :=
| EvChange (v : jsstring)
| EvSendClick (uuid now : jsstring)
| EvKeyDown (e : KeyEvent) (uuid now : jsstring)
| EvSearch (q : jsstring)
| EvClickChat (i : nat).

Definition uiStep (st : UIState) (ev : UIEvent) : UIState :=
  match ev with
  | EvChange v => onChange v st
  | EvSendClick uuid now => snd (handleSend uuid now st)
  | EvKeyDown e uuid now => snd (onKeyDown e uuid now st)
  | EvSearch q => setQuery q st
  | EvClickChat i =>
      match nth_error (sidebar st) i with
      | Some c => selectChat (c_id c) st
      | None => st
      end
  end.

Definition uiRun (st : UIState) (evs : list UIEvent) : UIState :=
  fold_left uiStep evs st.
End Events.

(** ** The client store and the route guard of the frontend guide

    The guide (dingg-backend/README.md) carries the source of the chat
    store [store/chat.ts] and of [middleware.ts]. *)

Module Store.

Inductive MsgStatus := sending | sent | delivered | read.

Record Message := {
  mid : jsstring;
  conversationId : jsstring;
  senderId : jsstring;
  text : option jsstring;
  createdAt : jsstring;
  status : MsgStatus
}.

Record Participant := {
  pid : jsstring;
  pname : jsstring;
  pavatar : option jsstring;
  ponline : option bool
}.

Record Conversation := {
  cid : jsstring;
  name : option jsstring;
  participants : list Participant;
  lastMessage : option Message;
  unreadCount : option Z
}.

(** [ChatState]: the objects used as maps are finite maps on their own
    keys; a [Set] of user ids is a finite set. *)
Record ChatState := {
  conversations : list Conversation;
  messages : gmap jsstring (list Message);
  cursors : gmap jsstring (option jsstring);
  typing : gmap jsstring (gset jsstring)
}.

Definition initial : ChatState :=
  {| conversations := []; messages := ∅; cursors := ∅; typing := ∅ |}.

(** [upsertConversation]:
    [[c, ...s.conversations.filter(x => x.id !== c.id)]] *)
Definition upsertConversation (c : Conversation) (s : ChatState) : ChatState :=
  {| conversations :=
       c :: List.filter (fun x => negb (jsstring_eqb (cid x) (cid c)))
                        (conversations s);
     messages := messages s; cursors := cursors s; typing := typing s |}.

(** [setCursor]: [{ ...s.cursors, [id]: cursor }] *)
Definition setCursor (id : jsstring) (cursor : option jsstring)
    (s : ChatState) : ChatState :=
  {| conversations := conversations s; messages := messages s;
     cursors := <[id := cursor]> (cursors s); typing := typing s |}.

Section Prototype.
(** The names that every object inherits from [Object.prototype]
    ("constructor", "toString", ...): reading such a key from an object
    that does not own it yields the inherited member, not [undefined]. *)
Variable inherited : jsstring -> bool.

(** [obj[k] || empty] followed by a spread or [new Set(...)]: an own value
    is used as it is, a missing key gives [empty], and an inherited member
    is truthy and not iterable, so the spread throws a TypeError ([None]). *)
Definition readOr {A} (obj : gmap jsstring A) (k : jsstring) (empty : A)
  : option A :=
  match obj !! k with
  | Some v => Some v
  | None => if inherited k then None else Some empty
  end.

(** [addMessage]:
    [[m.conversationId]: [...(s.messages[m.conversationId]||[]), m]] *)
Definition addMessage (m : Message) (s : ChatState) : option ChatState :=
  match readOr (messages s) (conversationId m) [] with
  | None => None
  | Some old =>
      Some {| conversations := conversations s;
              messages := <[conversationId m := old ++ [m]]> (messages s);
              cursors := cursors s; typing := typing s |}
  end.

(** [prependMessages]: [[id]: [...items, ...(s.messages[id]||[])]] *)
Definition prependMessages (id : jsstring) (newItems : list Message)
    (s : ChatState) : option ChatState :=
  match readOr (messages s) id [] with
  | None => None
  | Some old =>
      Some {| conversations := conversations s;
              messages := <[id := newItems ++ old]> (messages s);
              cursors := cursors s; typing := typing s |}
  end.

(** [setTyping]: a copy of the conversation's set, with the user added or
    deleted, replaces the set. *)
Definition setTyping (id userId : jsstring) (isTyping : bool)
    (s : ChatState) : option ChatState :=
  match readOr (typing s) id ∅ with
  | None => None
  | Some setFor =>
      Some {| conversations := conversations s; messages := messages s;
              cursors := cursors s;
              typing := <[id := if isTyping then setFor ∪ {[userId]}
                                else setFor ∖ {[userId]}]> (typing s) |}
  end.

(** The socket handler applied to a stream of incoming messages:
    [addMessage] for each, in order of arrival. *)
Definition addMessages (ms : list Message) (s : ChatState) : option ChatState :=
  fold_left (fun acc m => match acc with
                          | Some s' => addMessage m s'
                          | None => None
                          end) ms (Some s).

(** The list shown for a conversation: [s.messages[id] || []] for a key
    that is not inherited. *)
Definition messagesOf (s : ChatState) (id : jsstring) : list Message :=
  default [] (messages s !! id).

(** The users typing in a conversation: [s.typing[id]], no one when the key
    is missing. *)
Definition typingOf (s : ChatState) (id : jsstring) : gset jsstring :=
  default ∅ (typing s !! id).
End Prototype.

End Store.

Module Middleware.

(** What [middleware] reads of the request: the path and the value of the
    [dingg_session] cookie when the cookie is present. *)
Record Request := { pathname : jsstring; sessionCookie : option jsstring }.

(** [NextResponse.next()] or a redirect to the request's URL with the path
    replaced. *)
Inductive Response :=
| Next
| Redirect (path : jsstring).

Definition PROTECTED : list jsstring := [Lit.chatsPath].

(** [middleware(req)]: a path under a protected prefix needs the session
    cookie with a non-empty value ([Boolean("")] is false). *)
Definition middleware (req : Request) : Response :=
  let needAuth := existsb (fun p => startsWith (pathname req) p) PROTECTED in
  if negb needAuth then Next
  else
    let hasSession := match sessionCookie req with
                      | Some (_ :: _) => true
                      | _ => false
                      end in
    if negb hasSession then Redirect Lit.loginPath else Next.

End Middleware.

(** ** The realtime delivery core

    The repository holds no backend code: the server is described in the
    README and in the design.  Every definition of this module is modelled
    from that description. *)

Module Backend.

(** Modelled from the spec: the result of an operation of the core, a value
    or one error of the taxonomy (no backend source exists). *)
Inductive Result (A : Type) :=
| Ok (a : A)
| Err (e : ErrorKind).
Arguments Ok {A} a.
Arguments Err {A} e.

(** Modelled from the spec: a persisted message (no backend source exists):
    conversation, sender, body, creation timestamp and the identifier the
    storage assigned. *)
Record StoredMessage := {
  sm_id : Z;
  sm_conv : Z;
  sm_sender : Z;
  sm_body : jsstring;
  sm_ts : Z
}.

(** Modelled from the spec: the receipt status, delivered or read. *)
Inductive ReceiptStatus := RDelivered | RRead.

(** Modelled from the spec: the event envelope's four kinds with their
    payloads. *)
Inductive Event :=
| EMessage (conv messageId : Z)
| ETyping (conv user : Z) (typing : bool)
| ERead (conv user upto : Z)
| EPresence (user : Z) (isOnline : bool).

(** Modelled from the spec: the presence record of a user: online flag, the
    persisted last-seen time and the time of the last keepalive/activity. *)
Record PresenceRecord := {
  p_online : bool;
  p_lastSeen : Z;
  p_lastActivity : Z
}.

(** Modelled from the spec: the state of the core (no backend source
    exists): the participants of each conversation as the storage lists
    them, the session registry (connection handle to user, conversation to
    subscribed handles), the persisted messages in insertion order with the
    next identifier, the receipts per (message, user), the presence records,
    the events handed to the router for broadcast and the deliveries queued
    per connection. *)
Record Core := {
  participants : gmap Z (gset Z);
  connections : gmap Z Z;
  subscriptions : gmap Z (gset Z);
  stored : list StoredMessage;
  nextId : Z;
  receipts : gmap (Z * Z) ReceiptStatus;
  presence : gmap Z PresenceRecord;
  published : list Event;
  outbox : list (Z * Event)
}.

(** Modelled from the spec: [connectionsFor(conversationId)]. *)
Definition connectionsFor (st : Core) (conv : Z) : gset Z :=
  default ∅ (subscriptions st !! conv).

(** Modelled from the spec: the router's fan-out of an event to a set of
    connections; the event is logged as published and queued once for each
    recipient. *)
Definition fanOut (st : Core) (to : gset Z) (ev : Event) : Core :=
  {| participants := participants st; connections := connections st;
     subscriptions := subscriptions st; stored := stored st;
     nextId := nextId st; receipts := receipts st; presence := presence st;
     published := published st ++ [ev];
     outbox := outbox st ++ map (fun c => (c, ev)) (elements to) |}.

(** Modelled from the spec: the participant check shared by [send],
    [subscribe] and [markRead]: an unknown conversation is NotFound, a
    non-participant is Forbidden. *)
Definition checkParticipant (st : Core) (conv user : Z) : Result unit :=
  match participants st !! conv with
  | None => Err NotFound
  | Some ps => if bool_decide (user ∈ ps) then Ok tt else Err Forbidden
  end.

(** Modelled from the spec: [subscribe(connectionHandle, conversationId)];
    the caller is the user the handle was registered for. *)
Definition subscribe (st : Core) (conn conv : Z) : Result unit * Core :=
  match connections st !! conn with
  | None => (Err Forbidden, st)
  | Some user =>
      match checkParticipant st conv user with
      | Err e => (Err e, st)
      | Ok _ =>
          (Ok tt,
           {| participants := participants st; connections := connections st;
              subscriptions :=
                <[conv := {[conn]} ∪ connectionsFor st conv]> (subscriptions st);
              stored := stored st; nextId := nextId st;
              receipts := receipts st; presence := presence st;
              published := published st; outbox := outbox st |})
      end
  end.

(** Modelled from the spec: what the storage collaborator answers to
    [insertMessage]: it stored the message at a timestamp, or the call
    exceeded its deadline, or the storage was unreachable. *)
Inductive StorageReply :=
| Stored (ts : Z)
| StorageTimeout
| StorageUnavailable.

(** Modelled from the spec: the Conversation Router's
    [publish(event, conversationId, senderConnection) -> delivery count]:
    the publish is rejected with Forbidden when the sending connection is
    not subscribed to the conversation; otherwise the event is delivered
    once to every connection subscribed to it, and their number is
    returned. *)
Definition publish (st : Core) (ev : Event) (conv senderConn : Z)
  : Result nat * Core :=
  if bool_decide (senderConn ∈ connectionsFor st conv)
  then (Ok (size (connectionsFor st conv)),
        fanOut st (connectionsFor st conv) ev)
  else (Err Forbidden, st).

(** Modelled from the spec: [send(conversationId, senderId, body)] of the
    message pipeline, for a request that arrived on the connection [via]:
    participant check, non-empty trimmed body, persistence (identifier from
    the storage's counter), then the Router's [publish] of the MESSAGE event
    on behalf of the sending connection.  A storage failure aborts before
    anything is changed; a publish that the Router rejects does not roll the
    persisted message back. *)
Definition send (st : Core) (conv sender via : Z) (body : jsstring)
    (reply : StorageReply) : Result StoredMessage * Core :=
  match checkParticipant st conv sender with
  | Err e => (Err e, st)
  | Ok _ =>
      match trim body with
      | [] => (Err InvalidArgument, st)
      | _ :: _ =>
          match reply with
          | StorageTimeout => (Err Timeout, st)
          | StorageUnavailable => (Err Unavailable, st)
          | Stored ts =>
              let m := {| sm_id := nextId st; sm_conv := conv;
                          sm_sender := sender; sm_body := body; sm_ts := ts |} in
              let st1 :=
                {| participants := participants st;
                   connections := connections st;
                   subscriptions := subscriptions st;
                   stored := stored st ++ [m]; nextId := nextId st + 1;
                   receipts := receipts st; presence := presence st;
                   published := published st; outbox := outbox st |} in
              (Ok m, snd (publish st1 (EMessage conv (sm_id m)) conv via))
          end
      end
  end.

(** Modelled from the spec: a send request as the pipeline receives it, and
    the core after a sequence of requests. *)
Record SendRequest := {
  rq_conv : Z;
  rq_sender : Z;
  rq_via : Z;
  rq_body : jsstring;
  rq_reply : StorageReply
}.

Definition handleRequest (st : Core) (rq : SendRequest) : Core :=
  snd (send st (rq_conv rq) (rq_sender rq) (rq_via rq) (rq_body rq)
            (rq_reply rq)).

Definition runSends (st : Core) (rqs : list SendRequest) : Core :=
  fold_left handleRequest rqs st.

(** Modelled from the spec: the persisted messages of one conversation, in
    the order they were stored. *)
Definition historyOf (st : Core) (conv : Z) : list StoredMessage :=
  List.filter (fun m => sm_conv m =? conv) (stored st).

(** Modelled from the spec: the core at service start for given
    conversations, connections and subscriptions: nothing is stored yet. *)
Definition startCore (ps : gmap Z (gset Z)) (conns : gmap Z Z)
    (subs : gmap Z (gset Z)) : Core :=
  {| participants := ps; connections := conns; subscriptions := subs;
     stored := []; nextId := 1; receipts := ∅; presence := ∅;
     published := []; outbox := [] |}.

(** Modelled from the spec: [markRead(conversationId, userId, uptoMessageId)]:
    a Read receipt is upserted for every message of the conversation with
    identifier at most [upto] and another sender, then one READ event is
    broadcast. *)
Definition markRead (st : Core) (conv user upto : Z) : Result unit * Core :=
  match checkParticipant st conv user with
  | Err e => (Err e, st)
  | Ok _ =>
      let acked :=
        List.filter (fun m => (sm_conv m =? conv) && (sm_id m <=? upto)
                              && negb (sm_sender m =? user)) (stored st) in
      let st1 :=
        {| participants := participants st; connections := connections st;
           subscriptions := subscriptions st; stored := stored st;
           nextId := nextId st;
           receipts := foldr (fun m r => <[(sm_id m, user) := RRead]> r)
                             (receipts st) acked;
           presence := presence st;
           published := published st; outbox := outbox st |} in
      (Ok tt, fanOut st1 (connectionsFor st1 conv) (ERead conv user upto))
  end.

(** *** Pagination cursor resolver *)

(** Modelled from the spec: the cursor order key of a message,
    (creation timestamp, identifier), compared lexicographically. *)
Definition keyOf (m : StoredMessage) : Z * Z := (sm_ts m, sm_id m).

(** Modelled from the spec: the strict lexicographic order on cursor keys
    (timestamp first, identifier as the tie-break). *)
Definition keyLtb (a b : Z * Z) : bool :=
  (fst a <? fst b) || ((fst a =? fst b) && (snd a <? snd b)).

(** Modelled from the spec: the comparator of the descending cursor order
    (newest first, ties on the timestamp broken by the identifier). *)
Definition descCmp (a b : StoredMessage) : Z :=
  if keyLtb (keyOf b) (keyOf a) then -1
  else if keyLtb (keyOf a) (keyOf b) then 1 else 0.

(** Modelled from the spec: the storage's
    [queryMessagesBefore(conversationId, cursor, limit)] on the messages of
    one conversation: the messages strictly before the cursor (all of them
    without a cursor), newest first, at most [limit] of them. *)
(** Modelled from the spec: is the message strictly before the cursor?
    Without a cursor every message qualifies. *)
Definition beforeCursor (cursor : option (Z * Z)) (m : StoredMessage) : bool :=
  match cursor with
  | None => true
  | Some c => keyLtb (keyOf m) c
  end.

Definition queryMessagesBefore (history : list StoredMessage)
    (cursor : option (Z * Z)) (limit : nat) : list StoredMessage :=
  firstn limit (sort descCmp (List.filter (beforeCursor cursor) history)).

(** Modelled from the spec: the fixed maximum the limit is clamped to (the
    design gives 100 as its example). *)
Definition MAX_LIMIT : positive := 100%positive.

(** Modelled from the spec: the limit in force after clamping to the fixed
    maximum [maxLimit]. *)
Definition effectiveLimit (maxLimit : positive) (limit : Z) : nat :=
  Z.to_nat (Z.min limit (Z.pos maxLimit)).

(** Modelled from the spec: [page(conversationId, limit, beforeCursor?)] on
    the messages of the conversation: a non-positive limit is
    InvalidArgument; the limit is clamped; the page is returned oldest to
    newest; the next cursor is the key of the page's oldest item, or null
    when fewer items than the limit in force came back. *)
Definition page (maxLimit : positive) (history : list StoredMessage)
    (limit : Z) (before : option (Z * Z))
  : Result (list StoredMessage * option (Z * Z)) :=
  if limit <=? 0 then Err InvalidArgument
  else
    let eff := effectiveLimit maxLimit limit in
    let pageItems := rev (queryMessagesBefore history before eff) in
    let next := if (length pageItems <? eff)%nat then None
                else keyOf <$> head pageItems in
    Ok (pageItems, next).

(** Modelled from the spec: the caller's loop (the README's load-more
    handler): fetch a page, prepend it to what was fetched, continue with
    [nextCursor] until it is null.  [None] means the fuel ran out. *)
Fixpoint fetchAll (maxLimit : positive) (fuel : nat)
    (history : list StoredMessage) (limit : Z)
    (cursor : option (Z * Z)) : option (Result (list StoredMessage)) :=
  match fuel with
  | O => None
  | S fuel' =>
      match page maxLimit history limit cursor with
      | Err e => Some (Err e)
      | Ok (pageItems, None) => Some (Ok pageItems)
      | Ok (pageItems, Some c) =>
          match fetchAll maxLimit fuel' history limit (Some c) with
          | Some (Ok older) => Some (Ok (older ++ pageItems))
          | other => other
          end
      end
  end.

(** Modelled from the spec: the two readings of the cursor order on
    messages, and the full history in ascending chronological order. *)
Definition newerThan (a b : StoredMessage) : Prop :=
  keyLtb (keyOf b) (keyOf a) = true.

(** Modelled from the spec: the cursor order read oldest first. *)
Definition olderThan (a b : StoredMessage) : Prop :=
  keyLtb (keyOf a) (keyOf b) = true.

(** Modelled from the spec: the full history in ascending chronological
    order, the newest-first order reversed. *)
Definition ascending (history : list StoredMessage) : list StoredMessage :=
  rev (sort descCmp history).

(** *** Presence tracker and connection lifecycle *)

(** Modelled from the spec: the core with its presence records replaced. *)
Definition withPresence (st : Core) (p : gmap Z PresenceRecord) : Core :=
  {| participants := participants st; connections := connections st;
     subscriptions := subscriptions st; stored := stored st;
     nextId := nextId st; receipts := receipts st; presence := p;
     published := published st; outbox := outbox st |}.

(** Modelled from the spec: [isOnline(userId)]; a user without a presence
    record is offline. *)
Definition isOnline (st : Core) (user : Z) : bool :=
  match presence st !! user with
  | Some r => p_online r
  | None => false
  end.

(** Modelled from the spec: [lastSeen(userId)]. *)
Definition lastSeen (st : Core) (user : Z) : option Z :=
  p_lastSeen <$> presence st !! user.

(** Modelled from the spec: [markOnline(userId)] at time [now]. *)
Definition markOnline (st : Core) (user now : Z) : Core :=
  withPresence st
    (<[user := {| p_online := true;
                  p_lastSeen := default now (lastSeen st user);
                  p_lastActivity := now |}]> (presence st)).

(** Modelled from the spec: the users who share a conversation with
    [user], and their live connections: the recipients of a presence
    event. *)
Definition peersOf (st : Core) (user : Z) : gset Z :=
  map_fold (fun _ ps acc => if bool_decide (user ∈ ps) then ps ∪ acc else acc)
           ∅ (participants st).

(** Modelled from the spec: the live connections of the peers of [user]. *)
Definition presenceRecipients (st : Core) (user : Z) : gset Z :=
  dom (filter (fun kv => kv.2 ∈ peersOf st user) (connections st)).

(** Modelled from the spec: [markOffline(userId)] at time [now]: only a
    user who is online makes the transition; last-seen is recorded and one
    presence event is broadcast.  For a user already offline nothing
    happens. *)
Definition markOffline (st : Core) (user now : Z) : Core :=
  match presence st !! user with
  | Some r =>
      if p_online r then
        fanOut
          (withPresence st
             (<[user := {| p_online := false; p_lastSeen := now;
                           p_lastActivity := p_lastActivity r |}]> (presence st)))
          (presenceRecipients st user) (EPresence user false)
      else st
  | None => st
  end.

(** Modelled from the spec: a keepalive of an online user refreshes the
    time the TTL is measured from. *)
Definition keepalive (st : Core) (user now : Z) : Core :=
  match presence st !! user with
  | Some r =>
      if p_online r then
        withPresence st
          (<[user := {| p_online := true; p_lastSeen := p_lastSeen r;
                        p_lastActivity := now |}]> (presence st))
      else st
  | None => st
  end.

(** Modelled from the spec: [register(userId, connectionHandle)]: the
    handle is recorded for the user, who is marked online.  A handle that
    is already registered is left alone. *)
Definition register (st : Core) (user conn now : Z) : Core :=
  match connections st !! conn with
  | Some _ => st
  | None =>
      markOnline
        {| participants := participants st;
           connections := <[conn := user]> (connections st);
           subscriptions := subscriptions st; stored := stored st;
           nextId := nextId st; receipts := receipts st;
           presence := presence st;
           published := published st; outbox := outbox st |}
        user now
  end.

(** Modelled from the spec: does the user hold a live connection? *)
Definition hasConnection (st : Core) (user : Z) : bool :=
  bool_decide (map_Exists (fun _ v => v = user) (connections st)).

(** Modelled from the spec: [unregister(connectionHandle)]: the handle is
    removed from the registry and from every subscription set, then the
    presence tracker's offline check runs: the user goes offline when no
    connection of theirs is left. *)
Definition unregister (st : Core) (conn now : Z) : Core :=
  match connections st !! conn with
  | None => st
  | Some user =>
      let st1 :=
        {| participants := participants st;
           connections := delete conn (connections st);
           subscriptions := (fun s => s ∖ {[conn]}) <$> subscriptions st;
           stored := stored st; nextId := nextId st; receipts := receipts st;
           presence := presence st;
           published := published st; outbox := outbox st |} in
      if hasConnection st1 user then st1 else markOffline st1 user now
  end.

(** Modelled from the spec: a record has expired at [now] when the user is
    online and more than [ttl] has passed since the last activity. *)
Definition expired (ttl now : Z) (r : PresenceRecord) : bool :=
  p_online r && (ttl <? now - p_lastActivity r).

(** Modelled from the spec: the TTL sweep at time [now]: every expired user
    is marked offline. *)
Definition sweep (ttl : Z) (st : Core) (now : Z) : Core :=
  foldr (fun ur s => markOffline s (fst ur) now) st
        (List.filter (fun ur => expired ttl now (snd ur))
                     (map_to_list (presence st))).

(** Modelled from the spec: the inputs that drive the presence state
    machine. *)
Inductive PresenceInput :=
| IRegister (user conn now : Z)
| IUnregister (conn now : Z)
| IKeepalive (user now : Z)
| ISweep (now : Z).

(** Modelled from the spec: one input applied to the core; [ttl] is the
    fixed TTL of the presence records. *)
Definition step (ttl : Z) (st : Core) (i : PresenceInput) : Core :=
  match i with
  | IRegister user conn now => register st user conn now
  | IUnregister conn now => unregister st conn now
  | IKeepalive user now => keepalive st user now
  | ISweep now => sweep ttl st now
  end.

(** Modelled from the spec: a sequence of inputs applied in order. *)
Definition run (ttl : Z) (st : Core) (inputs : list PresenceInput) : Core :=
  fold_left (step ttl) inputs st.

(** Modelled from the spec: is the event the offline presence event of
    [user]? *)
Definition isOfflineEvent (user : Z) (ev : Event) : bool :=
  match ev with
  | EPresence u false => u =? user
  | _ => false
  end.

(** Modelled from the spec: the number of offline presence events of
    [user] in a log of published events. *)
Definition offlineEvents (user : Z) (log : list Event) : nat :=
  length (List.filter (isOfflineEvent user) log).

(** Modelled from the spec: did [user] go from Online to Offline between
    the two states? *)
Definition wentOffline (user : Z) (before after : Core) : bool :=
  isOnline before user && negb (isOnline after user).

(** Modelled from the spec: the number of Online-to-Offline transitions of
    [user] along a run. *)
Fixpoint offlineTransitions (ttl : Z) (user : Z) (st : Core)
    (inputs : list PresenceInput) : nat :=
  match inputs with
  | [] => O
  | i :: rest =>
      ((if wentOffline user st (step ttl st i) then 1 else 0)
       + offlineTransitions ttl user (step ttl st i) rest)%nat
  end.

(** Modelled from the spec: the core at service start: nothing registered,
    nothing stored. *)
Definition emptyCore : Core :=
  {| participants := ∅; connections := ∅; subscriptions := ∅; stored := [];
     nextId := 1; receipts := ∅; presence := ∅; published := []; outbox := [] |}.

End Backend.

(** * Properties of the conversation UI *)

(** ** The send handler *)

Lemma handleSend_blank (uuid now : jsstring) (st : UIState) :
  trim (newMessage st) = [] -> handleSend uuid now st = (Returned, st).
Proof. unfold handleSend. intros ->. reflexivity. Qed.

Lemma handleSend_never_throws (uuid now : jsstring) (st : UIState) :
  fst (handleSend uuid now st) = Returned.
Proof. unfold handleSend. destruct (trim (newMessage st)); reflexivity. Qed.

Example trim_hi : trim [32; 104; 105; 32; 10]%N = [104; 105]%N.
Proof. reflexivity. Qed.

Example trim_nbsp_only : trim [160; 9; 8195]%N = [].
Proof. reflexivity. Qed.

Example handleSend_trims_and_appends :
  let c := {| c_id := 1; c_name := [77]%N; c_avatar := None;
              c_online := Some true; c_pinned := Some true;
              c_unread := Some 2; c_messages := [] |} in
  let st := {| query := []; chats := [c]; selectedId := 1;
               newMessage := [32; 104; 105; 10]%N; isTyping := true |} in
  map c_messages (chats (snd (handleSend [49]%N [50]%N st)))
  = [[mkMessage [49]%N [50]%N [104; 105]%N]]
  /\ newMessage (snd (handleSend [49]%N [50]%N st)) = []
  /\ isTyping (snd (handleSend [49]%N [50]%N st)) = false.
Proof. repeat split. Qed.

(** C1, as stated, fails: with the composer holding two spaces the trimmed
    text is empty, and [handleSend] returns at its guard without raising
    InvalidArgument (or anything else). *)
Lemma handleSend_blank_no_InvalidArgument :
  let st := {| query := []; chats := []; selectedId := 1;
               newMessage := [32; 32]%N; isTyping := true |} in
  trim (newMessage st) = []
  /\ fst (handleSend [] [] st) = Returned
  /\ fst (handleSend [] [] st) <> Thrown InvalidArgument.
Proof. cbv zeta. repeat split. discriminate. Qed.

(** C1, amended: for every composer text whose trim is empty, [handleSend]
    returns normally, raising no error, and leaves all state unchanged: the
    chat list, the composer text and the typing flag are the same after
    the call as before. *)
Theorem handleSend_blank_is_silent_noop (uuid now : jsstring) (st : UIState) :
  trim (newMessage st) = [] ->
  fst (handleSend uuid now st) = Returned
  /\ snd (handleSend uuid now st) = st
  /\ chats (snd (handleSend uuid now st)) = chats st
  /\ newMessage (snd (handleSend uuid now st)) = newMessage st
  /\ isTyping (snd (handleSend uuid now st)) = isTyping st.
Proof.
  intros H. rewrite (handleSend_blank uuid now st H). simpl. auto.
Qed.

Lemma handleSend_blank_is_silent_noop_witness :
  let st := {| query := []; chats := []; selectedId := 1;
               newMessage := [9; 32; 10]%N; isTyping := true |} in
  trim (newMessage st) = []
  /\ fst (handleSend [49]%N [50]%N st) = Returned
  /\ snd (handleSend [49]%N [50]%N st) = st.
Proof.
  cbv zeta. split; [reflexivity|].
  pose proof (handleSend_blank_is_silent_noop [49]%N [50]%N
    {| query := []; chats := []; selectedId := 1;
       newMessage := [9; 32; 10]%N; isTyping := true |} eq_refl) as H.
  split; apply H.
Defined.

Lemma handleSend_nonblank (uuid now : jsstring) (st : UIState) :
  trim (newMessage st) <> [] ->
  handleSend uuid now st =
  (Returned,
   {| query := query st;
      chats := map (appendMessage (selectedId st)
                      (mkMessage uuid now (trim (newMessage st)))) (chats st);
      selectedId := selectedId st; newMessage := []; isTyping := false |}).
Proof.
  unfold handleSend. destruct (trim (newMessage st)); [congruence | reflexivity].
Qed.

Lemma typeAndSend_nonblank (st : UIState) (i : SendInput) :
  trim (si_text i) <> [] ->
  typeAndSend st i =
  {| query := query st;
     chats := map (appendMessage (selectedId st) (sentMessage i)) (chats st);
     selectedId := selectedId st; newMessage := []; isTyping := false |}.
Proof.
  intros H. unfold typeAndSend. rewrite handleSend_nonblank by exact H.
  reflexivity.
Qed.

Lemma appendMessage_id (sel : Z) (m : Message) (c : Chat) :
  c_id (appendMessage sel m c) = c_id c.
Proof. unfold appendMessage. destruct (c_id c =? sel); reflexivity. Qed.

Lemma appendMessage_selected (sel : Z) (m : Message) (c : Chat) :
  (c_id c =? sel) = true ->
  c_messages (appendMessage sel m c) = c_messages c ++ [m].
Proof. unfold appendMessage. intros ->. reflexivity. Qed.

Lemma find_appendMessage (sel : Z) (m : Message) (cs : list Chat) (c : Chat) :
  List.find (fun c => c_id c =? sel) cs = Some c ->
  exists c', List.find (fun c => c_id c =? sel) (map (appendMessage sel m) cs) = Some c'
             /\ c_messages c' = c_messages c ++ [m].
Proof.
  revert c. induction cs as [|x cs IH]; intros c; simpl; [discriminate|].
  rewrite appendMessage_id.
  destruct (c_id x =? sel) eqn:E.
  - intros [= <-]. eexists; split; [reflexivity|].
    apply appendMessage_selected, E.
  - apply IH.
Qed.

Lemma sendAll_messages (inputs : list SendInput) :
  forall (st : UIState) (c : Chat),
    selectedChat st = Some c ->
    Forall (fun i => trim (si_text i) <> []) inputs ->
    exists c', selectedChat (sendAll st inputs) = Some c'
               /\ c_messages c' = c_messages c ++ map sentMessage inputs.
Proof.
  induction inputs as [|i inputs IH]; intros st c Hsel Hall.
  - exists c. simpl. rewrite app_nil_r. auto.
  - inversion Hall as [|? ? Hi Hrest]; subst.
    destruct (find_appendMessage (selectedId st) (sentMessage i) _ _ Hsel)
      as (c1 & Hfind & Hmsgs).
    assert (Hsel1 : selectedChat (typeAndSend st i) = Some c1).
    { rewrite typeAndSend_nonblank by exact Hi. exact Hfind. }
    destruct (IH _ _ Hsel1 Hrest) as (c' & Hc' & Hm').
    exists c'. split; [exact Hc'|].
    rewrite Hm', Hmsgs, <- app_assoc. reflexivity.
Qed.

(** ** The clear-unread effect *)

Lemma clearUnreadChat_idem (sel : Z) (c : Chat) :
  clearUnreadChat sel (clearUnreadChat sel c) = clearUnreadChat sel c.
Proof.
  unfold clearUnreadChat. destruct (c_id c =? sel) eqn:E; simpl; rewrite E; reflexivity.
Qed.

(** C3: marking a conversation read is idempotent: for every chat list and
    every conversation id, applying the clear-unread update twice gives
    exactly the state that applying it once gives. *)
Theorem clearUnread_idempotent (sel : Z) (cs : list Chat) :
  clearUnread sel (clearUnread sel cs) = clearUnread sel cs.
Proof.
  unfold clearUnread. rewrite map_map. apply map_ext.
  intros c. apply clearUnreadChat_idem.
Qed.

(** C5: clearing unread is frame-preserving: position by position, the
    chat after the update has the same id, name, avatar, online flag,
    pinned flag and messages as before; its unread count is 0 when its id
    is the selected one, and otherwise the whole chat is the one it was. *)
Theorem clearUnread_frame (sel : Z) (cs : list Chat) :
  length (clearUnread sel cs) = length cs
  /\ Forall2 (fun c c' =>
        c_id c' = c_id c /\ c_name c' = c_name c /\ c_avatar c' = c_avatar c
        /\ c_online c' = c_online c /\ c_pinned c' = c_pinned c
        /\ c_messages c' = c_messages c
        /\ c_unread c' = (if c_id c =? sel then Some 0 else c_unread c)
        /\ (if c_id c =? sel then True else c' = c))
      cs (clearUnread sel cs).
Proof.
  split; [apply length_map|].
  induction cs as [|c cs IH]; simpl; constructor; [|exact IH].
  unfold clearUnreadChat. destruct (c_id c =? sel); simpl; repeat split.
Qed.

(** ** Day grouping *)

Section GroupsFacts.
Variable dayLabel : jsstring -> jsstring.

Lemma groupsStep_push (out : list Group) (m : Message) :
  Forall (wfGroup dayLabel) (out ++ [{| day := dayLabel (m_at m); items := [m] |}])
  <-> Forall (wfGroup dayLabel) out.
Proof.
  rewrite Forall_app. split; [tauto|]. intros H. split; [exact H|].
  constructor; [|constructor]. split; simpl; [discriminate|].
  constructor; [reflexivity | constructor].
Qed.

Lemma concat_items_snoc (out : list Group) (g : Group) :
  concat (map items (out ++ [g])) = concat (map items out) ++ items g.
Proof. rewrite map_app, concat_app. simpl. rewrite app_nil_r. reflexivity. Qed.

Lemma groupsStep_ok (out : list Group) (m : Message) :
  Forall (wfGroup dayLabel) out ->
  exists out', groupsStep dayLabel out m = Some out'
               /\ Forall (wfGroup dayLabel) out'
               /\ concat (map items out') = concat (map items out) ++ [m].
Proof.
  intros Hwf. unfold groupsStep.
  destruct (last out) as [lst|] eqn:Hlast.
  - apply last_Some in Hlast. destruct Hlast as [front ->].
    apply Forall_app in Hwf. destruct Hwf as [Hfront Hlst].
    inversion Hlst as [|? ? [Hne Hlbl] _]; subst.
    destruct (items lst) as [|m0 rest] eqn:Hitems; [congruence|].
    unfold jsstring_eqb. destruct (bool_decide_reflect (dayLabel (m_at m0) = dayLabel (m_at m))) as [Heq|Hneq]; simpl.
    + rewrite removelast_last. eexists. split; [reflexivity|]. split.
      * apply Forall_app. split; [exact Hfront|].
        constructor; [|constructor]. split; simpl; [discriminate|].
        constructor.
        -- now inversion Hlbl.
        -- apply Forall_app. split; [now inversion Hlbl|].
           constructor; [|constructor]. rewrite <- Heq. now inversion Hlbl.
      * rewrite !concat_items_snoc. simpl. rewrite Hitems.
        rewrite <- !app_assoc. reflexivity.
    + eexists. split; [reflexivity|]. split.
      * apply groupsStep_push. apply Forall_app. split; [exact Hfront|].
        constructor; [|constructor]. split; [congruence|]. rewrite Hitems. exact Hlbl.
      * rewrite (concat_items_snoc (front ++ [lst])). reflexivity.
  - apply last_None in Hlast. subst out. eexists. split; [reflexivity|]. split.
    + apply groupsStep_push. constructor.
    + reflexivity.
Qed.

Lemma groupsFrom_ok (ms : list Message) :
  forall out, Forall (wfGroup dayLabel) out ->
  exists gs, groupsFrom dayLabel out ms = Some gs
             /\ Forall (wfGroup dayLabel) gs
             /\ concat (map items gs) = concat (map items out) ++ ms.
Proof.
  induction ms as [|m ms IH]; intros out Hwf.
  - exists out. simpl. rewrite app_nil_r. auto.
  - destruct (groupsStep_ok out m Hwf) as (out1 & Hstep & Hwf1 & Hcat1).
    destruct (IH out1 Hwf1) as (gs & Hgs & Hwfgs & Hcat).
    exists gs. split; [|split; [exact Hwfgs|]].
    + unfold groupsFrom in *. simpl. rewrite Hstep. exact Hgs.
    + rewrite Hcat, Hcat1, <- app_assoc. reflexivity.
Qed.

Lemma groups_ok (ms : list Message) :
  exists gs, groups dayLabel ms = Some gs
             /\ Forall (wfGroup dayLabel) gs
             /\ concat (map items gs) = ms.
Proof.
  destruct (groupsFrom_ok ms [] (List.Forall_nil _)) as (gs & H1 & H2 & H3).
  exists gs. auto.
Qed.

End GroupsFacts.

Example groups_by_first_unit :
  let mk a := {| m_id := []; m_sender := them; m_text := []; m_at := a;
                 m_status := None |} in
  option_map (map (fun g => (day g, map m_at (items g))))
    (groups (firstn 1) [mk [1; 2]; mk [1; 3]; mk [2; 1]; mk [1; 1]]%N)
  = Some [([1], [[1; 2]; [1; 3]]); ([2], [[2; 1]]); ([1], [[1; 1]])]%N.
Proof. reflexivity. Qed.

(** C4: day grouping is a lossless partition: for every message list the
    grouping function returns groups whose items, concatenated in group
    order, are exactly the original list (nothing dropped, duplicated or
    reordered); every group is non-empty and each of its items has the
    group's day label. *)
Theorem groups_lossless_partition (dayLabel : jsstring -> jsstring)
    (ms : list Message) :
  exists gs, groups dayLabel ms = Some gs
    /\ concat (map items gs) = ms
    /\ Forall (fun g => items g <> []
                        /\ Forall (fun m => dayLabel (m_at m) = day g) (items g)) gs.
Proof.
  destruct (groups_ok dayLabel ms) as (gs & H1 & H2 & H3).
  exists gs. repeat split; assumption.
Qed.

(** C2: for every sequence of successful sends to the selected
    conversation, the conversation's message list afterwards is the list
    before followed by one message for each send, in the order of the sends:
    the k-th new message carries the id generated for the k-th send, sender
    "me", the trimmed text typed for that send, the time of that send and
    status "sent".  The thread as rendered (the day groups, read in order)
    shows that same order. *)
Theorem sends_appended_in_order (dayLabel : jsstring -> jsstring)
    (st : UIState) (c : Chat) (inputs : list SendInput) :
  selectedChat st = Some c ->
  Forall (fun i => trim (si_text i) <> []) inputs ->
  let sentNow :=
    map (fun i => {| m_id := si_uuid i; m_sender := me;
                     m_text := trim (si_text i); m_at := si_now i;
                     m_status := Some sent |}) inputs in
  exists c' gs,
    selectedChat (sendAll st inputs) = Some c'
    /\ c_messages c' = c_messages c ++ sentNow
    /\ groups dayLabel (c_messages c') = Some gs
    /\ concat (map items gs) = c_messages c ++ sentNow
    /\ map m_text (skipn (length (c_messages c)) (c_messages c'))
       = map (fun i => trim (si_text i)) inputs
    /\ map m_id (skipn (length (c_messages c)) (c_messages c'))
       = map si_uuid inputs
    /\ map m_at (skipn (length (c_messages c)) (c_messages c'))
       = map si_now inputs.
Proof.
  intros Hsel Hall. cbv zeta.
  destruct (sendAll_messages inputs st c Hsel Hall) as (c' & Hc' & Hm).
  destruct (groups_ok dayLabel (c_messages c')) as (gs & Hg & _ & Hcat).
  change (map sentMessage inputs)
    with (map (fun i => {| m_id := si_uuid i; m_sender := me;
                           m_text := trim (si_text i); m_at := si_now i;
                           m_status := Some sent |}) inputs) in Hm.
  exists c', gs. rewrite Hcat.
  split; [exact Hc'|]. split; [exact Hm|]. split; [exact Hg|].
  split; [exact Hm|].
  rewrite Hm, skipn_app, Nat.sub_diag, skipn_all. cbn [app].
  rewrite !skipn_O, !map_map. repeat split.
Qed.

Lemma sends_appended_in_order_witness :
  let c := {| c_id := 1; c_name := [77]%N; c_avatar := None;
              c_online := Some true; c_pinned := Some true;
              c_unread := Some 2; c_messages := [] |} in
  let st := {| query := []; chats := [c]; selectedId := 1;
               newMessage := []; isTyping := false |} in
  let inputs := [ {| si_text := [104; 105]%N; si_uuid := [49]%N; si_now := [50]%N |};
                  {| si_text := [32; 121; 111]%N; si_uuid := [51]%N; si_now := [52]%N |} ] in
  selectedChat st = Some c
  /\ Forall (fun i => trim (si_text i) <> []) inputs
  /\ exists c',
       selectedChat (sendAll st inputs) = Some c'
       /\ c_messages c' =
          [ {| m_id := [49]%N; m_sender := me; m_text := [104; 105]%N;
               m_at := [50]%N; m_status := Some sent |};
            {| m_id := [51]%N; m_sender := me; m_text := [121; 111]%N;
               m_at := [52]%N; m_status := Some sent |} ].
Proof.
  cbv zeta.
  split; [reflexivity|].
  split; [repeat constructor; discriminate|].
  match goal with |- exists c', selectedChat (sendAll ?st ?inputs) = _ /\ _ =>
    destruct (sends_appended_in_order (fun s => s) st _ inputs eq_refl)
      as (c' & gs & H1 & H2 & _)
  end.
  - repeat constructor; discriminate.
  - exists c'. split; [exact H1 | exact H2].
Defined.

(** ** Sidebar filter *)

Lemma sortInsert_pinned (x : Chat) (ps us : list Chat) :
  Forall (fun c => isPinned c = true) ps ->
  Forall (fun c => isPinned c = false) us ->
  sortInsert pinnedCmp x (ps ++ us) =
  if isPinned x then x :: ps ++ us else ps ++ x :: us.
Proof.
  intros Hps Hus. induction Hps as [|p ps Hp Hps IH]; simpl.
  - destruct us as [|u us]; simpl.
    + destruct (isPinned x); reflexivity.
    + inversion Hus as [|? ? Hu _]; subst. unfold pinnedCmp.
      unfold isPinned in *. rewrite Hu.
      destruct (truthy (c_pinned x)); reflexivity.
  - unfold pinnedCmp at 1. unfold isPinned in *. rewrite Hp.
    destruct (truthy (c_pinned x)) eqn:Hx; simpl.
    + reflexivity.
    + rewrite IH. reflexivity.
Qed.

Lemma Forall_filter_true {A} (f : A -> bool) (l : list A) :
  Forall (fun c => f c = true) (List.filter f l).
Proof. apply List.Forall_forall. intros x Hx. apply filter_In in Hx. tauto. Qed.

Lemma Forall_filter_false {A} (f : A -> bool) (l : list A) :
  Forall (fun c => f c = false) (List.filter (fun c => negb (f c)) l).
Proof.
  apply List.Forall_forall. intros x Hx. apply filter_In in Hx.
  destruct Hx as [_ Hx]. now apply negb_true_iff in Hx.
Qed.

(** The stable sort on the pinned flag moves the pinned chats to the
    front and keeps the order inside both classes. *)
Lemma sort_pinnedCmp (cs : list Chat) :
  sort pinnedCmp cs =
  List.filter isPinned cs ++ List.filter (fun c => negb (isPinned c)) cs.
Proof.
  induction cs as [|c cs IH]; [reflexivity|].
  change (sort pinnedCmp (c :: cs)) with (sortInsert pinnedCmp c (sort pinnedCmp cs)).
  rewrite IH, sortInsert_pinned
    by (apply Forall_filter_true || apply Forall_filter_false).
  simpl. destruct (isPinned c); reflexivity.
Qed.

Lemma filter_filter_andb {A} (f g : A -> bool) (l : list A) :
  List.filter g (List.filter f l) = List.filter (fun x => f x && g x) l.
Proof.
  induction l as [|x l IH]; [reflexivity|]. simpl.
  destruct (f x); simpl; [destruct (g x)|]; rewrite IH; reflexivity.
Qed.

Lemma filter_split_Permutation {A} (f k : A -> bool) (l : list A) :
  Permutation (List.filter (fun x => f x && k x) l
               ++ List.filter (fun x => negb (f x) && k x) l)
              (List.filter k l).
Proof.
  induction l as [|x l IH]; [constructor|]. simpl.
  destruct (f x), (k x); simpl; try exact IH.
  - now constructor.
  - symmetry. apply Permutation_cons_app. now symmetry.
Qed.

Lemma startsWith_app (p rest : jsstring) : startsWith (p ++ rest) p = true.
Proof.
  induction p as [|c p IH]; [destruct rest; reflexivity|]. simpl.
  now rewrite N.eqb_refl, IH.
Qed.

Lemma startsWith_inv (s p : jsstring) :
  startsWith s p = true -> exists rest, s = p ++ rest.
Proof.
  revert s. induction p as [|c p IH]; intros s H; [now exists s|].
  destruct s as [|x s]; [discriminate|]. simpl in H.
  apply andb_true_iff in H. destruct H as [Hc Hs].
  apply N.eqb_eq in Hc. subst x. destruct (IH s Hs) as [rest ->].
  now exists rest.
Qed.

(** [includes] is substring containment. *)
Lemma includes_iff (s sub : jsstring) :
  includes s sub = true <-> exists pre post, s = pre ++ sub ++ post.
Proof.
  induction s as [|x s IH].
  - simpl. rewrite orb_false_r. split.
    + destruct sub; [|discriminate]. now exists [], [].
    + intros (pre & post & H). symmetry in H.
      apply app_eq_nil in H. destruct H as [_ H].
      apply app_eq_nil in H. destruct H as [-> _]. reflexivity.
  - change (includes (x :: s) sub)
      with (startsWith (x :: s) sub || includes s sub).
    rewrite orb_true_iff, IH. split.
    + intros [H|(pre & post & ->)].
      * apply startsWith_inv in H. destruct H as [rest ->]. now exists [], rest.
      * now exists (x :: pre), post.
    + intros ([|y pre] & post & H).
      * left. simpl in H. rewrite H. apply startsWith_app.
      * right. injection H as _ ->. now exists pre, post.
Qed.

Lemma includes_empty (s : jsstring) : includes s [] = true.
Proof. destruct s; reflexivity. Qed.

Lemma filter_all_true {A} (f : A -> bool) (l : list A) :
  (forall x, f x = true) -> List.filter f l = l.
Proof.
  intros H. induction l as [|x l IH]; [reflexivity|].
  simpl. rewrite H, IH. reflexivity.
Qed.

Lemma filtered_eq (toLowerCase : jsstring -> jsstring)
    (cs : list Chat) (q : jsstring) :
  filtered toLowerCase cs q =
  List.filter (fun c => isPinned c && matchesQuery toLowerCase q c) cs
  ++ List.filter (fun c => negb (isPinned c) && matchesQuery toLowerCase q c) cs.
Proof.
  unfold filtered. rewrite sort_pinnedCmp, List.filter_app, !filter_filter_andb.
  reflexivity.
Qed.

(** C6: the sidebar filter is sound and complete.  For every chat list and
    query the filtered list is: the matching pinned chats in their original
    order, then the matching unpinned chats in their original order.  So it
    is a rearrangement of exactly the chats whose lower-cased name includes
    the lower-cased query (each occurrence once), its members are exactly
    those chats, and with the empty query every chat is returned.  A chat
    matches exactly when its lower-cased name is some prefix, then the
    lower-cased query, then some suffix. *)
Theorem filtered_sound_complete (toLowerCase : jsstring -> jsstring)
    (cs : list Chat) (q : jsstring) :
  toLowerCase [] = [] ->
  filtered toLowerCase cs q =
    List.filter (fun c => isPinned c && matchesQuery toLowerCase q c) cs
    ++ List.filter (fun c => negb (isPinned c) && matchesQuery toLowerCase q c) cs
  /\ Permutation (filtered toLowerCase cs q)
                 (List.filter (matchesQuery toLowerCase q) cs)
  /\ (forall c, In c (filtered toLowerCase cs q)
                <-> In c cs /\ matchesQuery toLowerCase q c = true)
  /\ filtered toLowerCase cs [] =
       List.filter isPinned cs ++ List.filter (fun c => negb (isPinned c)) cs
  /\ Permutation (filtered toLowerCase cs []) cs
  /\ (forall c, matchesQuery toLowerCase q c = true
                <-> exists pre post,
                      toLowerCase (c_name c) = pre ++ toLowerCase q ++ post)
  /\ (forall c, In c (filtered toLowerCase cs q)
                <-> In c cs
                    /\ exists pre post,
                         toLowerCase (c_name c) = pre ++ toLowerCase q ++ post)
  /\ (exists pinnedPart otherPart,
        filtered toLowerCase cs q = pinnedPart ++ otherPart
        /\ Forall (fun c => truthy (c_pinned c) = true) pinnedPart
        /\ Forall (fun c => truthy (c_pinned c) = false) otherPart).
Proof.
  intros Hlow.
  assert (Hperm : forall q', Permutation (filtered toLowerCase cs q')
                     (List.filter (matchesQuery toLowerCase q') cs)).
  { intros q'. rewrite filtered_eq. apply filter_split_Permutation. }
  assert (Hall : forall c, matchesQuery toLowerCase [] c = true).
  { intros c. unfold matchesQuery. rewrite Hlow. apply includes_empty. }
  assert (Hin : forall c, In c (filtered toLowerCase cs q)
                  <-> In c cs /\ matchesQuery toLowerCase q c = true).
  { intros c. rewrite <- filter_In. split; intros H.
    - eapply Permutation_in; [apply Hperm | exact H].
    - eapply Permutation_in; [symmetry; apply Hperm | exact H]. }
  assert (Hsub : forall c, matchesQuery toLowerCase q c = true
                  <-> exists pre post,
                        toLowerCase (c_name c) = pre ++ toLowerCase q ++ post).
  { intros c. unfold matchesQuery. apply includes_iff. }
  split; [apply filtered_eq|]. split; [apply Hperm|]. split; [exact Hin|].
  split; [|split; [|split; [exact Hsub|split]]].
  - unfold filtered. rewrite (filter_all_true _ _ Hall). apply sort_pinnedCmp.
  - rewrite (Hperm []). rewrite (filter_all_true _ _ Hall). reflexivity.
  - intros c. rewrite Hin, Hsub. reflexivity.
  - eexists. eexists. split; [apply filtered_eq|]. split.
    + apply List.Forall_forall. intros c Hc. apply filter_In in Hc.
      destruct Hc as [_ Hc]. apply andb_true_iff in Hc. apply Hc.
    + apply List.Forall_forall. intros c Hc. apply filter_In in Hc.
      destruct Hc as [_ Hc]. apply andb_true_iff in Hc.
      destruct Hc as [Hc _]. now apply negb_true_iff in Hc.
Qed.

Lemma filtered_sound_complete_witness :
  let lower := map (fun c => if ((65 <=? c) && (c <=? 90))%N then (c + 32)%N else c) in
  let mk i n p := {| c_id := i; c_name := n; c_avatar := None; c_online := None;
                     c_pinned := p; c_unread := None; c_messages := [] |} in
  let cs := [mk 2 [76; 97; 110]%N None; mk 4 [66; 111]%N (Some true);
             mk 1 [77; 105; 110; 104]%N (Some true);
             mk 3 [65; 110]%N (Some false)] in
  lower [] = []
  /\ filtered lower cs [78]%N = [mk 1 [77; 105; 110; 104]%N (Some true);
                                 mk 2 [76; 97; 110]%N None;
                                 mk 3 [65; 110]%N (Some false)]
  /\ ~ In (mk 4 [66; 111]%N (Some true)) (filtered lower cs [78]%N)
  /\ Permutation (filtered lower cs []) cs.
Proof.
  cbv zeta. split; [reflexivity|].
  match goal with |- filtered ?lo ?cs ?q = _ /\ _ =>
    pose proof (filtered_sound_complete lo cs q eq_refl) as H end.
  destruct H as (H1 & _ & _ & _ & H5 & _ & H7 & _).
  split; [rewrite H1; reflexivity|]. split; [|exact H5].
  intros Hin. apply H7 in Hin. destruct Hin as (_ & pre & post & Hsub).
  destruct pre as [|a [|b [|? ?]]]; simpl in Hsub; discriminate.
Defined.

(** * Properties of the realtime delivery core *)

Import Backend.

(** ** Participant-only access *)

Lemma checkParticipant_outsider (st : Core) (conv user : Z) (ps : gset Z) :
  participants st !! conv = Some ps -> user ∉ ps ->
  checkParticipant st conv user = Err Forbidden.
Proof.
  intros Hps Hnot. unfold checkParticipant. rewrite Hps.
  rewrite bool_decide_eq_false_2 by exact Hnot. reflexivity.
Qed.

(** C8: for every user who is not a participant of a conversation, [send],
    [subscribe] (through a connection of that user) and [markRead] on that
    conversation fail with Forbidden and return the state they were given:
    registry, messages and receipts are unchanged. *)
Theorem non_participant_forbidden (st : Core) (conv user conn upto : Z)
    (ps : gset Z) (body : jsstring) (reply : StorageReply) :
  participants st !! conv = Some ps ->
  user ∉ ps ->
  connections st !! conn = Some user ->
  (forall via, send st conv user via body reply = (Err Forbidden, st))
  /\ subscribe st conn conv = (Err Forbidden, st)
  /\ markRead st conv user upto = (Err Forbidden, st).
Proof.
  intros Hps Hnot Hconn.
  pose proof (checkParticipant_outsider st conv user ps Hps Hnot) as Hchk.
  unfold send, subscribe, markRead. rewrite Hconn, Hchk. auto.
Qed.

Lemma non_participant_forbidden_witness :
  let st := {| participants := {[ 42 := {[ 1; 2 ]} ]};
               connections := {[ 100 := 3 ]};
               subscriptions := ∅; stored := []; nextId := 101;
               receipts := ∅; presence := ∅; published := []; outbox := [] |} in
  participants st !! 42 = Some {[ 1; 2 ]}
  /\ (3 ∉ ({[ 1; 2 ]} : gset Z))
  /\ connections st !! 100 = Some 3
  /\ (forall via, send st 42 3 via [104; 105]%N (Stored 7) = (Err Forbidden, st))
  /\ subscribe st 100 42 = (Err Forbidden, st)
  /\ markRead st 42 3 101 = (Err Forbidden, st).
Proof.
  cbv zeta.
  assert (Hout : 3 ∉ ({[ 1; 2 ]} : gset Z))
    by (vm_compute; intros H; discriminate H).
  split; [reflexivity|]. split; [exact Hout|]. split; [reflexivity|].
  apply (non_participant_forbidden _ 42 3 100 101 {[ 1; 2 ]}).
  - reflexivity.
  - exact Hout.
  - reflexivity.
Defined.

(** ** Read receipts *)

Lemma upsert_fold_lookup (user : Z) (l : list StoredMessage)
    (r : gmap (Z * Z) ReceiptStatus) (m : StoredMessage) :
  m ∈ l ->
  foldr (fun m r => <[(sm_id m, user) := RRead]> r) r l !! (sm_id m, user)
  = Some RRead.
Proof.
  induction l as [|y l IH]; intros Hm; [inversion Hm|]. simpl.
  destruct (decide ((sm_id y, user) = (sm_id m, user))) as [->|Hne].
  - apply lookup_insert_eq.
  - rewrite lookup_insert_ne by exact Hne. apply IH.
    apply elem_of_cons in Hm. destruct Hm as [->|Hm]; [congruence | exact Hm].
Qed.

Lemma upsert_fold_absorb (user : Z) (l : list StoredMessage)
    (r : gmap (Z * Z) ReceiptStatus) :
  (forall m, m ∈ l -> r !! (sm_id m, user) = Some RRead) ->
  foldr (fun m r => <[(sm_id m, user) := RRead]> r) r l = r.
Proof.
  induction l as [|y l IH]; intros H; [reflexivity|]. simpl.
  rewrite IH by (intros m Hm; apply H; now right).
  apply insert_id, H. now left.
Qed.

(** The backend's [markRead] is idempotent on the receipts as well: a
    second acknowledgement up to the same message leaves them as the first
    one made them. *)
Lemma markRead_receipts_idempotent (st : Core) (conv user upto : Z) :
  receipts (snd (markRead (snd (markRead st conv user upto)) conv user upto))
  = receipts (snd (markRead st conv user upto)).
Proof.
  unfold markRead at 2 3.
  destruct (checkParticipant st conv user) as [[]|e] eqn:Hchk; simpl.
  - unfold markRead, checkParticipant in *. simpl.
    destruct (participants st !! conv) as [ps|]; [|discriminate].
    destruct (bool_decide (user ∈ ps)); [|discriminate]. simpl.
    apply upsert_fold_absorb. intros m Hm. now apply upsert_fold_lookup.
  - unfold markRead. rewrite Hchk. reflexivity.
Qed.

(** ** Send and persistence *)


Lemma publish_subscribed (st : Core) (ev : Event) (conv via : Z) :
  via ∈ connectionsFor st conv ->
  publish st ev conv via =
  (Ok (size (connectionsFor st conv)), fanOut st (connectionsFor st conv) ev).
Proof.
  intros H. unfold publish. now rewrite bool_decide_eq_true_2.
Qed.

Lemma publish_unsubscribed (st : Core) (ev : Event) (conv via : Z) :
  via ∉ connectionsFor st conv -> publish st ev conv via = (Err Forbidden, st).
Proof.
  intros H. unfold publish. now rewrite bool_decide_eq_false_2.
Qed.

(** What [publish] may do to a core: nothing, or one fan-out of the event
    to the conversation's subscribers, the sending connection among them. *)
Lemma publish_effect (st : Core) (ev : Event) (conv via : Z) :
  ((via ∈ connectionsFor st conv)
   /\ snd (publish st ev conv via) = fanOut st (connectionsFor st conv) ev)
  \/ ((via ∉ connectionsFor st conv) /\ snd (publish st ev conv via) = st).
Proof.
  destruct (decide (via ∈ connectionsFor st conv)) as [H|H].
  - left. split; [exact H|]. now rewrite publish_subscribed.
  - right. split; [exact H|]. now rewrite publish_unsubscribed.
Qed.

Lemma send_cases (st : Core) (conv sender via : Z) (body : jsstring)
    (reply : StorageReply) :
  (exists ts,
      reply = Stored ts
      /\ checkParticipant st conv sender = Ok tt /\ trim body <> []
      /\ send st conv sender via body reply =
         (Ok {| sm_id := nextId st; sm_conv := conv; sm_sender := sender;
                sm_body := body; sm_ts := ts |},
          snd (publish
                 {| participants := participants st;
                    connections := connections st;
                    subscriptions := subscriptions st;
                    stored := stored st
                              ++ [{| sm_id := nextId st; sm_conv := conv;
                                     sm_sender := sender; sm_body := body;
                                     sm_ts := ts |}];
                    nextId := nextId st + 1;
                    receipts := receipts st; presence := presence st;
                    published := published st; outbox := outbox st |}
                 (EMessage conv (nextId st)) conv via)))
  \/ (exists e, send st conv sender via body reply = (Err e, st)
                /\ (checkParticipant st conv sender = Err e
                    \/ (e = InvalidArgument /\ trim body = [])
                    \/ (e = Timeout /\ reply = StorageTimeout)
                    \/ (e = Unavailable /\ reply = StorageUnavailable))).
Proof.
  unfold send.
  destruct (checkParticipant st conv sender) as [[]|e] eqn:Hchk;
    [|right; exists e; auto].
  destruct (trim body) as [|b bs] eqn:Hbody;
    [right; exists InvalidArgument; auto|].
  destruct reply as [ts| |].
  - left. exists ts. repeat split. discriminate.
  - right. exists Timeout. auto 6.
  - right. exists Unavailable. auto 6.
Qed.





(** ** Presence *)

Lemma offlineEvents_snoc (user : Z) (log : list Event) (ev : Event) :
  offlineEvents user (log ++ [ev]) =
  (offlineEvents user log + if isOfflineEvent user ev then 1 else 0)%nat.
Proof.
  unfold offlineEvents. rewrite List.filter_app, length_app. simpl.
  destruct (isOfflineEvent user ev); reflexivity.
Qed.

Lemma isOnline_markOffline (st : Core) (v now u : Z) :
  isOnline (markOffline st v now) u = if v =? u then false else isOnline st u.
Proof.
  unfold markOffline, isOnline.
  destruct (Z.eqb_spec v u) as [->|Hne].
  - destruct (presence st !! u) as [r|] eqn:Hr; [|now rewrite Hr].
    destruct (p_online r) eqn:Hon; simpl.
    + now rewrite lookup_insert_eq.
    + now rewrite Hr.
  - destruct (presence st !! v) as [r|] eqn:Hr; [|reflexivity].
    destruct (p_online r); simpl; [|reflexivity].
    now rewrite lookup_insert_ne.
Qed.

Lemma published_markOffline (st : Core) (v now u : Z) :
  offlineEvents u (published (markOffline st v now)) =
  (offlineEvents u (published st)
   + if (v =? u)%Z && isOnline st v then 1 else 0)%nat.
Proof.
  unfold markOffline, isOnline.
  destruct (presence st !! v) as [r|] eqn:Hr;
    [|rewrite andb_false_r; lia].
  destruct (p_online r); simpl; [|rewrite andb_false_r; lia].
  rewrite offlineEvents_snoc. simpl. rewrite andb_true_r. reflexivity.
Qed.

Lemma isOnline_markOnline (st : Core) (v now u : Z) :
  isOnline (markOnline st v now) u = if v =? u then true else isOnline st u.
Proof.
  unfold markOnline, isOnline. simpl.
  destruct (Z.eqb_spec v u) as [->|Hne].
  - now rewrite lookup_insert_eq.
  - now rewrite lookup_insert_ne.
Qed.

Lemma isOnline_keepalive (st : Core) (v now u : Z) :
  isOnline (keepalive st v now) u = isOnline st u.
Proof.
  unfold keepalive, isOnline.
  destruct (presence st !! v) as [r|] eqn:Hr; [|reflexivity].
  destruct (p_online r) eqn:Hon; [|reflexivity]. simpl.
  destruct (decide (v = u)) as [->|Hne].
  - rewrite lookup_insert_eq, Hr. now rewrite Hon.
  - now rewrite lookup_insert_ne.
Qed.

Lemma published_keepalive (st : Core) (v now : Z) :
  published (keepalive st v now) = published st.
Proof.
  unfold keepalive. destruct (presence st !! v) as [r|]; [|reflexivity].
  destruct (p_online r); reflexivity.
Qed.

(** Marking a list of users offline, as the sweep does. *)
Lemma markOffline_fold (now u : Z) (l : list (Z * PresenceRecord)) (st : Core) :
  let st' := foldr (fun ur s => markOffline s (fst ur) now) st l in
  let hit := existsb (fun ur => (fst ur =? u)%Z) l in
  isOnline st' u = isOnline st u && negb hit
  /\ offlineEvents u (published st') =
     (offlineEvents u (published st) + if isOnline st u && hit then 1 else 0)%nat.
Proof.
  cbv zeta. induction l as [|x l [IH1 IH2]]; simpl.
  - rewrite andb_true_r, andb_false_r. split; [reflexivity | lia].
  - rewrite isOnline_markOffline, published_markOffline, IH2.
    destruct (fst x =? u) eqn:E; simpl.
    + apply Z.eqb_eq in E. rewrite E, IH1.
      split; [now rewrite andb_false_r|].
      rewrite andb_true_r.
      destruct (isOnline st u), (existsb _ l); simpl; lia.
    + split; [exact IH1 | lia].
Qed.

(** One step of the presence machine publishes an offline event of a user
    exactly when the step takes that user from Online to Offline. *)
Lemma step_offlineEvents (ttl : Z) (st : Core) (i : PresenceInput) (u : Z) :
  offlineEvents u (published (step ttl st i)) =
  (offlineEvents u (published st)
   + if wentOffline u st (step ttl st i) then 1 else 0)%nat.
Proof.
  unfold wentOffline. destruct i as [v conn now|conn now|v now|now]; simpl.
  - unfold register. destruct (connections st !! conn).
    + rewrite andb_negb_r. lia.
    + rewrite isOnline_markOnline. simpl.
      unfold isOnline. simpl.
      destruct (v =? u)%Z, (presence st !! u) as [[[] ? ?]|]; simpl; lia.
  - unfold unregister. destruct (connections st !! conn) as [v|].
    + match goal with |- context [hasConnection ?s v] => set (st1 := s) end.
      assert (Hon : forall w, isOnline st1 w = isOnline st w) by reflexivity.
      destruct (hasConnection st1 v).
      * rewrite Hon, andb_negb_r. simpl. lia.
      * rewrite isOnline_markOffline, published_markOffline, !Hon. simpl.
        destruct (Z.eqb_spec v u) as [->|Hne]; simpl.
        -- rewrite andb_true_r. reflexivity.
        -- rewrite andb_negb_r. reflexivity.
    + rewrite andb_negb_r. lia.
  - rewrite isOnline_keepalive, published_keepalive, andb_negb_r. lia.
  - unfold sweep.
    destruct (markOffline_fold now u
                (List.filter (fun ur => expired ttl now (snd ur))
                             (map_to_list (presence st))) st) as [H1 H2].
    rewrite H1, H2.
    destruct (isOnline st u), (existsb _ _); reflexivity.
Qed.

Lemma run_offlineEvents (ttl : Z) (u : Z) (inputs : list PresenceInput) :
  forall st,
    offlineEvents u (published (run ttl st inputs)) =
    (offlineEvents u (published st) + offlineTransitions ttl u st inputs)%nat.
Proof.
  induction inputs as [|i inputs IH]; intros st; simpl.
  - lia.
  - unfold run in *. simpl. rewrite IH, step_offlineEvents. lia.
Qed.

Lemma sweep_expires (ttl : Z) (st : Core) (now u : Z) (r : PresenceRecord) :
  presence st !! u = Some r -> p_online r = true ->
  ttl < now - p_lastActivity r ->
  isOnline (sweep ttl st now) u = false.
Proof.
  intros Hr Hon Hexp. unfold sweep.
  destruct (markOffline_fold now u
              (List.filter (fun ur => expired ttl now (snd ur))
                           (map_to_list (presence st))) st) as [H1 _].
  rewrite H1.
  assert (Hhit : existsb (fun ur => fst ur =? u)
                   (List.filter (fun ur => expired ttl now (snd ur))
                                (map_to_list (presence st))) = true).
  { apply existsb_exists. exists (u, r). split; [|apply Z.eqb_refl].
    apply filter_In. split.
    - apply list_elem_of_In, elem_of_map_to_list, Hr.
    - unfold expired. simpl. rewrite Hon. simpl. now apply Z.ltb_lt. }
  rewrite Hhit. apply andb_false_r.
Qed.

Lemma unregister_last (st : Core) (conn now u : Z) :
  connections st !! conn = Some u ->
  (forall c, connections st !! c = Some u -> c = conn) ->
  isOnline (unregister st conn now) u = false.
Proof.
  intros Hconn Honly. unfold unregister. rewrite Hconn.
  match goal with |- context [hasConnection ?s u] => set (st1 := s) end.
  assert (Hno : hasConnection st1 u = false).
  { unfold hasConnection. apply bool_decide_eq_false_2.
    intros (c & v & Hc & ->). simpl in Hc.
    apply lookup_delete_Some in Hc. destruct Hc as [Hne Hc].
    apply Hne. symmetry. now apply Honly. }
  rewrite Hno, isOnline_markOffline, Z.eqb_refl. reflexivity.
Qed.

Example presence_two_devices :
  let s0 := register (register emptyCore 5 100 10) 5 101 11 in
  let s1 := unregister s0 100 20 in
  let s2 := sweep 30 s1 50 in
  let s3 := unregister s2 101 60 in
  isOnline s0 5 = true
  /\ published s1 = []
  /\ published s2 = [EPresence 5 false]
  /\ published s3 = [EPresence 5 false]
  /\ lastSeen s3 5 = Some 50.
Proof. vm_compute. repeat split. Qed.

(** C10: for every user the presence machine publishes an offline event
    exactly when a step takes the user from Online to Offline: one event
    per transition, step by step and along every run, and none while the
    user is already Offline.  A TTL expiry and the disconnect of the last
    connection both leave the user Offline. *)
Theorem offline_exactly_once (ttl : Z) (st : Core) (user : Z) :
  (forall i, offlineEvents user (published (step ttl st i)) =
             (offlineEvents user (published st)
              + if wentOffline user st (step ttl st i) then 1 else 0)%nat)
  /\ (forall inputs,
        offlineEvents user (published (run ttl st inputs)) =
        (offlineEvents user (published st)
         + offlineTransitions ttl user st inputs)%nat)
  /\ (isOnline st user = false ->
      forall i, offlineEvents user (published (step ttl st i)) =
                offlineEvents user (published st))
  /\ (forall now r, presence st !! user = Some r -> p_online r = true ->
        ttl < now - p_lastActivity r ->
        isOnline (step ttl st (ISweep now)) user = false)
  /\ (forall conn now, connections st !! conn = Some user ->
        (forall c, connections st !! c = Some user -> c = conn) ->
        isOnline (step ttl st (IUnregister conn now)) user = false).
Proof.
  split; [intros i; apply step_offlineEvents|].
  split; [intros inputs; apply run_offlineEvents|].
  split.
  { intros Hoff i. rewrite step_offlineEvents. unfold wentOffline.
    rewrite Hoff. simpl. lia. }
  split.
  - intros now r. apply sweep_expires.
  - intros conn now. apply unregister_last.
Qed.

(** ** Cursor pagination *)

Lemma keyLtb_spec (a b : Z * Z) :
  keyLtb a b = true <-> fst a < fst b \/ (fst a = fst b /\ snd a < snd b).
Proof.
  unfold keyLtb. rewrite orb_true_iff, andb_true_iff, !Z.ltb_lt, Z.eqb_eq.
  reflexivity.
Qed.

Lemma keyLtb_irrefl (a : Z * Z) : keyLtb a a = false.
Proof.
  apply not_true_is_false. rewrite keyLtb_spec. lia.
Qed.

Lemma keyLtb_trans (a b c : Z * Z) :
  keyLtb a b = true -> keyLtb b c = true -> keyLtb a c = true.
Proof. rewrite !keyLtb_spec. lia. Qed.

Lemma keyLtb_asym (a b : Z * Z) : keyLtb a b = true -> keyLtb b a = false.
Proof.
  intros H. apply not_true_is_false. revert H. rewrite !keyLtb_spec. lia.
Qed.

Lemma keyLtb_total (a b : Z * Z) :
  keyLtb a b = false -> keyLtb b a = false -> a = b.
Proof.
  intros H1 H2. apply not_true_iff_false in H1, H2.
  rewrite keyLtb_spec in H1, H2. destruct a, b; simpl in *. f_equal; lia.
Qed.

Lemma sortInsert_Permutation {A} (cmp : A -> A -> Z) (x : A) (l : list A) :
  Permutation (sortInsert cmp x l) (x :: l).
Proof.
  induction l as [|y l IH]; simpl; [reflexivity|].
  destruct (cmp x y <=? 0); [reflexivity|].
  rewrite IH. apply perm_swap.
Qed.

Lemma sort_Permutation {A} (cmp : A -> A -> Z) (l : list A) :
  Permutation (sort cmp l) l.
Proof.
  induction l as [|x l IH]; simpl; [reflexivity|].
  rewrite sortInsert_Permutation. now constructor.
Qed.

Lemma sortInsert_descending (x : StoredMessage) (l : list StoredMessage) :
  StronglySorted newerThan l ->
  (forall y, y ∈ l -> keyOf y <> keyOf x) ->
  StronglySorted newerThan (sortInsert descCmp x l).
Proof.
  induction 1 as [|y l Hl IH Hy]; intros Hfresh; simpl.
  - repeat constructor.
  - assert (Hyx : keyOf y <> keyOf x) by (apply Hfresh; left).
    unfold descCmp at 1.
    destruct (keyLtb (keyOf y) (keyOf x)) eqn:E1; simpl.
    + constructor; [now constructor|].
      constructor; [exact E1|].
      eapply List.Forall_impl; [|exact Hy]. unfold newerThan. simpl.
      intros z Hz. eapply keyLtb_trans; eauto.
    + destruct (keyLtb (keyOf x) (keyOf y)) eqn:E2; simpl.
      * constructor.
        -- apply IH. intros z Hz. apply Hfresh. now right.
        -- rewrite (sortInsert_Permutation descCmp x l). now constructor.
      * exfalso. apply Hyx. symmetry. now apply keyLtb_total.
Qed.

Lemma NoDup_keys_of_ids (l : list StoredMessage) :
  NoDup (map sm_id l) -> NoDup (map keyOf l).
Proof.
  induction l as [|x l IH]; simpl; intros H; inversion H as [|? ? Hx Hl]; subst;
    constructor; [|now apply IH].
  intros Hin. apply Hx. apply list_elem_of_In in Hin. apply list_elem_of_In.
  apply in_map_iff in Hin. destruct Hin as (y & Hk & Hy).
  apply in_map_iff. exists y. split; [|exact Hy].
  unfold keyOf in Hk. congruence.
Qed.

Lemma sort_descending (l : list StoredMessage) :
  NoDup (map keyOf l) -> StronglySorted newerThan (sort descCmp l).
Proof.
  induction l as [|x l IH]; simpl; intros H; [constructor|].
  inversion H as [|? ? Hx Hl]; subst.
  apply sortInsert_descending; [now apply IH|].
  intros y Hy Heq. apply Hx. rewrite <- Heq.
  rewrite (sort_Permutation descCmp l) in Hy.
  apply list_elem_of_fmap. now exists y.
Qed.

Lemma filter_prefix_suffix {A} (q : A -> bool) (l1 l2 : list A) :
  (forall x, x ∈ l1 -> q x = false) ->
  (forall x, x ∈ l2 -> q x = true) ->
  List.filter q (l1 ++ l2) = l2.
Proof.
  intros H1 H2. rewrite List.filter_app.
  replace (List.filter q l1) with (@nil A).
  - simpl. induction l2 as [|x l2 IH]; [reflexivity|]. simpl.
    rewrite H2 by left. f_equal. apply IH. intros y Hy. apply H2. now right.
  - symmetry. induction l1 as [|x l1 IH]; [reflexivity|]. simpl.
    rewrite H1 by left. apply IH. intros y Hy. apply H1. now right.
Qed.

Lemma StronglySorted_filter {A} (R : A -> A -> Prop) (q : A -> bool) (l : list A) :
  StronglySorted R l -> StronglySorted R (List.filter q l).
Proof.
  induction 1 as [|x l Hl IH Hx]; simpl; [constructor|].
  destruct (q x); [|exact IH]. constructor; [exact IH|].
  apply List.Forall_forall. intros y Hy. apply filter_In in Hy.
  rewrite List.Forall_forall in Hx. now apply Hx.
Qed.

Lemma Permutation_filter_bool {A} (q : A -> bool) (l l' : list A) :
  Permutation l l' -> Permutation (List.filter q l) (List.filter q l').
Proof.
  induction 1 as [|x l l' _ IH|x y l|l l' l'' _ IH1 _ IH2]; simpl.
  - constructor.
  - destruct (q x); [now constructor | exact IH].
  - destruct (q x), (q y); try reflexivity. apply perm_swap.
  - etransitivity; eassumption.
Qed.

Lemma NoDup_map_filter {A B} (f : A -> B) (q : A -> bool) (l : list A) :
  NoDup (map f l) -> NoDup (map f (List.filter q l)).
Proof.
  induction l as [|x l IH]; simpl; intros H; [constructor|].
  inversion H as [|? ? Hx Hl]; subst.
  destruct (q x); simpl; [|now apply IH].
  constructor; [|now apply IH].
  intros Hin. apply Hx. apply list_elem_of_In in Hin. apply list_elem_of_In.
  apply in_map_iff in Hin. destruct Hin as (y & Hy & Hin).
  apply filter_In in Hin. apply in_map_iff. exists y. tauto.
Qed.

(** Sorting the messages before a cursor is the same as keeping, in the
    sorted history, the messages before the cursor. *)
Lemma sort_filter_commute (q : StoredMessage -> bool) (l : list StoredMessage) :
  NoDup (map keyOf l) ->
  sort descCmp (List.filter q l) = List.filter q (sort descCmp l).
Proof.
  intros Hnd. apply (StronglySorted_unique_strong newerThan).
  - intros x y _ _ Hxy Hyx. unfold newerThan in *.
    apply keyLtb_asym in Hxy. congruence.
  - apply sort_descending. now apply NoDup_map_filter.
  - apply StronglySorted_filter. now apply sort_descending.
  - rewrite sort_Permutation. apply Permutation_filter_bool.
    symmetry. apply sort_Permutation.
Qed.

Lemma effectiveLimit_pos (maxLimit : positive) (limit : Z) :
  0 < limit -> (1 <= effectiveLimit maxLimit limit)%nat.
Proof. unfold effectiveLimit. lia. Qed.

(** The page served at a cursor that cuts the sorted history into the part
    already seen ([seen], not before the cursor) and the rest. *)
Lemma page_at_cut (maxLimit : positive) (history : list StoredMessage)
    (limit : Z) (seen rest : list StoredMessage) (c : option (Z * Z)) :
  0 < limit ->
  NoDup (map keyOf history) ->
  sort descCmp history = seen ++ rest ->
  (forall x, x ∈ seen -> beforeCursor c x = false) ->
  (forall x, x ∈ rest -> beforeCursor c x = true) ->
  page maxLimit history limit c =
  Ok (rev (firstn (effectiveLimit maxLimit limit) rest),
      if (length (firstn (effectiveLimit maxLimit limit) rest)
          <? effectiveLimit maxLimit limit)%nat
      then None
      else keyOf <$> head (rev (firstn (effectiveLimit maxLimit limit) rest))).
Proof.
  intros Hlim Hnd Hcut Hseen Hrest. unfold page, queryMessagesBefore.
  destruct (Z.leb_spec limit 0) as [?|_]; [lia|].
  rewrite sort_filter_commute by exact Hnd.
  rewrite Hcut, (filter_prefix_suffix _ _ _ Hseen Hrest), length_rev.
  reflexivity.
Qed.

Lemma fetchAll_from_cut (maxLimit : positive) (history : list StoredMessage)
    (limit : Z) :
  0 < limit ->
  NoDup (map keyOf history) ->
  forall (fuel : nat) (seen rest : list StoredMessage) (c : option (Z * Z)),
    sort descCmp history = seen ++ rest ->
    (forall x, x ∈ seen -> beforeCursor c x = false) ->
    (forall x, x ∈ rest -> beforeCursor c x = true) ->
    (length rest < fuel)%nat ->
    fetchAll maxLimit fuel history limit c = Some (Ok (rev rest)).
Proof.
  intros Hlim Hnd.
  pose proof (effectiveLimit_pos maxLimit limit Hlim) as Hpos.
  pose proof (sort_descending history Hnd) as Hsorted.
  induction fuel as [|fuel IH]; intros seen rest c Hcut Hseen Hrest Hfuel; [lia|].
  simpl. rewrite (page_at_cut maxLimit history limit seen rest c) by assumption.
  set (L := effectiveLimit maxLimit limit) in *.
  pose proof (length_firstn L rest) as Hlen.
  destruct (Nat.ltb_spec (length (firstn L rest)) L) as [Hshort|Hfull].
  - rewrite firstn_all2 by lia. reflexivity.
  - assert (HLrest : (L <= length rest)%nat) by lia.
    destruct (exists_last (l := firstn L rest)) as (front & m & Hfirst).
    { intros Hnil. rewrite Hnil in Hfull. simpl in Hfull. lia. }
    rewrite Hfirst, rev_app_distr. simpl.
    assert (Hsplit : rest = (front ++ [m]) ++ skipn L rest).
    { rewrite <- Hfirst. symmetry. apply firstn_skipn. }
    assert (Hcut' : sort descCmp history = (seen ++ front) ++ m :: skipn L rest).
    { rewrite Hcut. rewrite Hsplit at 1. rewrite <- !app_assoc. reflexivity. }
    rewrite Hcut' in Hsorted. apply StronglySorted_app in Hsorted.
    destruct Hsorted as (Hcross & _ & Htail).
    apply StronglySorted_inv in Htail. destruct Htail as [_ Hm].
    rewrite (IH (seen ++ front ++ [m]) (skipn L rest) (Some (keyOf m))).
    + assert (Hr : rev rest = rev (skipn L rest) ++ m :: rev front).
      { rewrite Hsplit at 1. rewrite !rev_app_distr. reflexivity. }
      now rewrite Hr.
    + rewrite Hcut'. rewrite <- !app_assoc. reflexivity.
    + intros x Hx. simpl. rewrite app_assoc in Hx.
      apply elem_of_app in Hx. destruct Hx as [Hx|Hx].
      * apply keyLtb_asym. apply (Hcross x m Hx). left.
      * apply list_elem_of_singleton in Hx. subst x. apply keyLtb_irrefl.
    + intros x Hx. simpl. rewrite List.Forall_forall in Hm.
      apply Hm. now apply list_elem_of_In.
    + rewrite length_skipn. lia.
Qed.

Lemma StronglySorted_rev_olderThan (l : list StoredMessage) :
  StronglySorted newerThan l -> StronglySorted olderThan (rev l).
Proof.
  induction 1 as [|x l Hl IH Hx]; simpl; [constructor|].
  apply StronglySorted_app. split; [|split; [exact IH | repeat constructor]].
  intros a b Ha Hb. apply list_elem_of_singleton in Hb. subst b.
  rewrite List.Forall_forall in Hx. apply list_elem_of_In, in_rev in Ha.
  exact (Hx a Ha).
Qed.

Lemma page_null_cursor (maxLimit : positive) (history : list StoredMessage)
    (limit : Z) (cursor : option (Z * Z)) (pageItems : list StoredMessage)
    (next : option (Z * Z)) :
  page maxLimit history limit cursor = Ok (pageItems, next) ->
  (length pageItems < effectiveLimit maxLimit limit)%nat -> next = None.
Proof.
  unfold page. destruct (limit <=? 0); [discriminate|].
  intros [= <- <-] Hlt. apply Nat.ltb_lt in Hlt. now rewrite Hlt.
Qed.

Example page_three_of_seven :
  let history :=
    map (fun i => {| sm_id := Z.of_nat i; sm_conv := 42; sm_sender := 1;
                     sm_body := [104]%N; sm_ts := Z.of_nat (i / 2) |})
        (seq 1 7) in
  match page MAX_LIMIT history 3 None with
  | Ok (pageItems, next) => (map sm_id pageItems, next)
  | Err _ => ([], None)
  end = ([5; 6; 7], Some (2, 5)).
Proof. reflexivity. Qed.

Example page_rejects_zero_limit :
  page MAX_LIMIT [] 0 None = Err InvalidArgument.
Proof. reflexivity. Qed.

(** A requested limit above the maximum is served with the maximum: with
    101 stored messages and limit 200 the first page holds 100 items and
    hands out a cursor for the one that is left. *)
Example page_clamped_has_next_cursor :
  let history :=
    map (fun i => {| sm_id := Z.of_nat i; sm_conv := 42; sm_sender := 1;
                     sm_body := [104]%N; sm_ts := 1000 + Z.of_nat i |})
        (seq 1 101) in
  exists pageItems c,
    page MAX_LIMIT history 200 None = Ok (pageItems, Some c)
    /\ length pageItems = effectiveLimit MAX_LIMIT 200
    /\ fetchAll MAX_LIMIT 102 history 200 None = Some (Ok history).
Proof.
  cbv zeta. eexists. eexists. split; [vm_compute; reflexivity|].
  split; vm_compute; reflexivity.
Qed.

(** Every history with distinct identifiers is reconstructed. *)
Lemma fetchAll_complete (maxLimit : positive) (history : list StoredMessage)
    (limit : Z) :
  0 < limit ->
  NoDup (map sm_id history) ->
  fetchAll maxLimit (S (length history)) history limit None
  = Some (Ok (ascending history))
  /\ Permutation (ascending history) history
  /\ StronglySorted olderThan (ascending history)
  /\ NoDup (ascending history).
Proof.
  intros Hlim Hids.
  pose proof (NoDup_keys_of_ids history Hids) as Hkeys.
  assert (Hperm : Permutation (ascending history) history).
  { unfold ascending. rewrite <- Permutation_rev. apply sort_Permutation. }
  split; [|split; [exact Hperm|split]].
  - unfold ascending.
    apply (fetchAll_from_cut maxLimit history limit Hlim Hkeys _ [] _ None).
    + reflexivity.
    + intros x Hx. inversion Hx.
    + reflexivity.
    + rewrite (Permutation_length (sort_Permutation descCmp history)). lia.
  - apply StronglySorted_rev_olderThan, sort_descending, Hkeys.
  - rewrite Hperm. apply (NoDup_fmap_1 sm_id). exact Hids.
Qed.

(** The storage hands out identifiers from its counter: what is stored has
    distinct identifiers, all below the next one. *)
Lemma send_keeps_ids_fresh (st : Core) (conv sender via : Z) (body : jsstring)
    (reply : StorageReply) :
  NoDup (map sm_id (stored st)) ->
  (forall m, m ∈ stored st -> sm_id m < nextId st) ->
  NoDup (map sm_id (stored (snd (send st conv sender via body reply))))
  /\ (forall m, m ∈ stored (snd (send st conv sender via body reply)) ->
                sm_id m < nextId (snd (send st conv sender via body reply))).
Proof.
  intros Hnd Hlt.
  destruct (send_cases st conv sender via body reply)
    as [(ts & _ & _ & _ & ->) | (e & -> & _)]; cbn [snd]; [|now split].
  match goal with |- context [publish ?s1 ?ev conv via] =>
    destruct (publish_effect s1 ev conv via) as [[_ ->] | [_ ->]]
  end; cbn [stored nextId fanOut].
  all: split;
    [ rewrite map_app; apply NoDup_app; split; [exact Hnd|]; split;
      [ intros x Hx Hx'; apply list_elem_of_singleton in Hx'; subst x;
        apply list_elem_of_fmap in Hx; destruct Hx as (m & Hid & Hm);
        apply Hlt in Hm; simpl in Hid; lia
      | apply NoDup_singleton ]
    | intros m Hm; apply elem_of_app in Hm; destruct Hm as [Hm|Hm];
      [ apply Hlt in Hm; lia
      | apply list_elem_of_singleton in Hm; subst m; simpl; lia ] ].
Qed.

Lemma runSends_ids_fresh (rqs : list SendRequest) :
  forall st,
    NoDup (map sm_id (stored st)) ->
    (forall m, m ∈ stored st -> sm_id m < nextId st) ->
    NoDup (map sm_id (stored (runSends st rqs))).
Proof.
  induction rqs as [|rq rqs IH]; intros st Hnd Hlt; [exact Hnd|].
  unfold runSends in *. simpl. unfold handleRequest at 2.
  destruct (send_keeps_ids_fresh st (rq_conv rq) (rq_sender rq) (rq_via rq)
              (rq_body rq) (rq_reply rq) Hnd Hlt) as [H1 H2].
  now apply IH.
Qed.

Lemma historyOf_distinct (ps : gmap Z (gset Z)) (conns : gmap Z Z)
    (subs : gmap Z (gset Z)) (rqs : list SendRequest) (conv : Z) :
  NoDup (map sm_id (historyOf (runSends (startCore ps conns subs) rqs) conv)).
Proof.
  unfold historyOf. apply NoDup_map_filter, runSends_ids_fresh.
  - constructor.
  - intros m Hm. inversion Hm.
Qed.

(** C7: for every conversation history, that is the messages of a
    conversation as the pipeline persisted them in any run of the service,
    and every positive page limit: repeatedly calling [page] with the
    returned next cursor until it is null, and concatenating the pages,
    terminates and reconstructs the full message history with no gaps and
    no duplicates in ascending chronological order; and a page with fewer
    items than the limit (the limit in force after clamping to the fixed
    maximum, which is the requested limit whenever that does not exceed the
    maximum) has a null next cursor. *)
Theorem pagination_complete (maxLimit : positive)
    (ps : gmap Z (gset Z)) (conns : gmap Z Z) (subs : gmap Z (gset Z))
    (rqs : list SendRequest) (conv limit : Z) :
  0 < limit ->
  let history := historyOf (runSends (startCore ps conns subs) rqs) conv in
  fetchAll maxLimit (S (length history)) history limit None
  = Some (Ok (ascending history))
  /\ Permutation (ascending history) history
  /\ StronglySorted olderThan (ascending history)
  /\ NoDup (ascending history)
  /\ (forall cursor pageItems next,
        page maxLimit history limit cursor = Ok (pageItems, next) ->
        (length pageItems < effectiveLimit maxLimit limit)%nat -> next = None)
  /\ (limit <= Z.pos maxLimit ->
      forall cursor pageItems next,
        page maxLimit history limit cursor = Ok (pageItems, next) ->
        Z.of_nat (length pageItems) < limit -> next = None).
Proof.
  intros Hlim. cbv zeta.
  pose proof (historyOf_distinct ps conns subs rqs conv) as Hids.
  destruct (fetchAll_complete maxLimit _ limit Hlim Hids) as (H1 & H2 & H3 & H4).
  split; [exact H1|]. split; [exact H2|]. split; [exact H3|].
  split; [exact H4|]. split.
  - intros cursor pageItems next. apply page_null_cursor.
  - intros Hle cursor pageItems next Hpage Hshort.
    apply (page_null_cursor _ _ _ _ _ _ Hpage).
    unfold effectiveLimit. lia.
Qed.

Lemma pagination_complete_witness :
  let ps : gmap Z (gset Z) := {[ 42 := {[ 1; 2 ]}; 43 := {[ 1 ]} ]} in
  let rq c u ts := {| rq_conv := c; rq_sender := u; rq_via := 100;
                      rq_body := [104]%N; rq_reply := Stored ts |} in
  let rqs := [rq 42 1 30; rq 43 1 31; rq 42 2 10; rq 42 1 30;
              {| rq_conv := 42; rq_sender := 2; rq_via := 100;
                 rq_body := [104]%N; rq_reply := StorageTimeout |};
              rq 42 2 20] in
  let history := historyOf (runSends (startCore ps ∅ ∅) rqs) 42 in
  0 < 2
  /\ map (fun m => (sm_ts m, sm_id m)) history = [(30, 1); (10, 3); (30, 4); (20, 5)]
  /\ fetchAll MAX_LIMIT 5 history 2 None = Some (Ok (ascending history))
  /\ map (fun m => (sm_ts m, sm_id m)) (ascending history)
     = [(10, 3); (20, 5); (30, 1); (30, 4)].
Proof.
  cbv zeta.
  split; [reflexivity|]. split; [vm_compute; reflexivity|].
  split; [|vm_compute; reflexivity].
  match goal with
  | |- fetchAll ?mx _ (historyOf (runSends (startCore ?ps ?cn ?sb) ?rqs) ?cv) ?l None = _ =>
      pose proof (pagination_complete mx ps cn sb rqs cv l eq_refl) as (H & _)
  end.
  exact H.
Defined.

(** * Further properties of the conversation UI *)

(** ** cn *)

Lemma filterBoolean_app (l1 l2 : list ClassArg) :
  filterBoolean (l1 ++ l2) = filterBoolean l1 ++ filterBoolean l2.
Proof.
  induction l1 as [|a l1 IH]; [reflexivity|].
  destruct a as [[|c s]| |]; simpl; rewrite ?IH; reflexivity.
Qed.

Lemma filterBoolean_nonempty (l : list ClassArg) :
  Forall (fun p => p <> []) (filterBoolean l).
Proof.
  induction l as [|a l IH]; [constructor|].
  destruct a as [[|c s]| |]; simpl; try exact IH.
  constructor; [discriminate | exact IH].
Qed.

Lemma join_nil_iff (sep : jsstring) (parts : list jsstring) :
  Forall (fun p => p <> []) parts -> join sep parts = [] <-> parts = [].
Proof.
  intros H. split; [|intros ->; reflexivity].
  destruct H as [|p parts Hp _]; [reflexivity|].
  destruct p as [|c p]; [congruence|].
  destruct parts; simpl; discriminate.
Qed.

Lemma join_app (sep : jsstring) (l1 l2 : list jsstring) :
  l1 <> [] -> l2 <> [] ->
  join sep (l1 ++ l2) = join sep l1 ++ sep ++ join sep l2.
Proof.
  intros H1 H2. induction l1 as [|p l1 IH]; [congruence|].
  destruct l1 as [|q l1].
  - simpl. destruct l2; [congruence | reflexivity].
  - change (join sep ((p :: q :: l1) ++ l2))
      with (p ++ sep ++ join sep ((q :: l1) ++ l2)).
    rewrite IH by discriminate.
    change (join sep (p :: q :: l1)) with (p ++ sep ++ join sep (q :: l1)).
    rewrite <- !app_assoc. reflexivity.
Qed.

Lemma cn_nil_iff (l : list ClassArg) : cn l = [] <-> filterBoolean l = [].
Proof. apply join_nil_iff, filterBoolean_nonempty. Qed.

(** X1: [cn] joins the truthy class names with single spaces.  A single
    class name is returned as it is and a single falsy argument gives the
    empty string; [cn] distributes over concatenation of argument lists (one
    space, only between two non-empty results), so a falsy argument
    ([false], [undefined] or the empty string) anywhere changes nothing, two
    class names come out separated by one space, and the result is empty
    exactly when every argument is falsy. *)
Theorem cn_compositional (l1 l2 : list ClassArg) :
  cn (l1 ++ l2) = spaced (cn l1) (cn l2)
  /\ (forall a, filterBoolean [a] = [] -> cn (l1 ++ a :: l2) = cn (l1 ++ l2))
  /\ (cn l1 = [] <-> filterBoolean l1 = [])
  /\ (forall s, cn [ClsStr s] = s)
  /\ cn [] = [] /\ cn [ClsFalse] = [] /\ cn [ClsUndefined] = []
  /\ (forall a, (a = ClsFalse \/ a = ClsUndefined \/ a = ClsStr [])
                <-> filterBoolean [a] = [])
  /\ (forall c s d t,
        cn [ClsStr (c :: s); ClsStr (d :: t)] = (c :: s) ++ [32%N] ++ (d :: t))
  /\ (forall a rest, cn (a :: rest) = spaced (cn [a]) (cn rest)).
Proof.
  assert (Happ : forall k1 k2, cn (k1 ++ k2) = spaced (cn k1) (cn k2)).
  { intros k1 k2. unfold cn at 1. rewrite filterBoolean_app. unfold spaced.
    destruct (filterBoolean k1) as [|p ps] eqn:E1.
    + apply cn_nil_iff in E1. rewrite E1. reflexivity.
    + destruct (filterBoolean k2) as [|q qs] eqn:E2.
      * apply cn_nil_iff in E2. rewrite E2, app_nil_r.
        unfold cn. rewrite E1. destruct (join [32%N] (p :: ps)); reflexivity.
      * rewrite join_app by discriminate.
        unfold cn. rewrite E1, E2.
        assert (H1 : join [32%N] (p :: ps) <> []).
        { rewrite join_nil_iff; [discriminate|].
          rewrite <- E1. apply filterBoolean_nonempty. }
        assert (H2 : join [32%N] (q :: qs) <> []).
        { rewrite join_nil_iff; [discriminate|].
          rewrite <- E2. apply filterBoolean_nonempty. }
        destruct (join [32%N] (p :: ps)); [congruence|].
        destruct (join [32%N] (q :: qs)); [congruence|]. reflexivity. }
  split; [apply Happ|]. split; [|split; [apply cn_nil_iff|]].
  - intros a Ha. unfold cn.
    change (a :: l2) with ([a] ++ l2).
    rewrite !filterBoolean_app, Ha. reflexivity.
  - split; [intros [|c s]; reflexivity|].
    split; [reflexivity|]. split; [reflexivity|]. split; [reflexivity|].
    split; [|split].
    + intros a. split.
      * intros [->|[->| ->]]; reflexivity.
      * destruct a as [[|c s]| |]; simpl; auto; discriminate.
    + intros c s d t. reflexivity.
    + intros a rest. apply (Happ [a] rest).
Qed.

Example cn_conditional_class :
  cn [ClsStr [97; 98]%N; ClsFalse; ClsStr [99]%N; ClsUndefined; ClsStr []]
  = [97; 98; 32; 99]%N.
Proof. reflexivity. Qed.

(** ** Dates and day labels *)

Lemma uintCodes_inj (d d' : Decimal.uint) :
  uintCodes d = uintCodes d' -> d = d'.
Proof.
  revert d'. induction d; destruct d'; simpl; try discriminate;
    intros H; try reflexivity; injection H as H'; f_equal; auto.
Qed.

Lemma uintCodes_no_minus (d : Decimal.uint) (r : jsstring) :
  uintCodes d <> 45%N :: r.
Proof. destruct d; simpl; discriminate. Qed.

Lemma numToString_inj (x y : Z) :
  numToString (Some x) = numToString (Some y) -> x = y.
Proof.
  unfold numToString.
  destruct (Z.ltb_spec x 0) as [Hx|Hx], (Z.ltb_spec y 0) as [Hy|Hy]; intros H.
  - injection H as H'. apply uintCodes_inj, DecimalN.Unsigned.to_uint_inj in H'. lia.
  - symmetry in H. now apply uintCodes_no_minus in H.
  - now apply uintCodes_no_minus in H.
  - apply uintCodes_inj, DecimalN.Unsigned.to_uint_inj in H. lia.
Qed.

(** Two decimal digits for every number from 0 to 99. *)
Lemma pad_two_digits (z : Z) :
  0 <= z < 100 ->
  pad (Some z) = [(48 + Z.to_N (z / 10))%N; (48 + Z.to_N (z mod 10))%N].
Proof.
  intros Hz.
  assert (Hin : In z (map Z.of_nat (seq 0 100))).
  { apply in_map_iff. exists (Z.to_nat z). split; [lia|]. apply in_seq. lia. }
  cbv [seq map] in Hin. simpl Z.of_nat in Hin.
  repeat (destruct Hin as [<-|Hin]; [reflexivity|]).
  destruct Hin.
Qed.

Lemma pad_inj (a b : Z) :
  0 <= a < 100 -> 0 <= b < 100 -> pad (Some a) = pad (Some b) -> a = b.
Proof.
  intros Ha Hb. rewrite !pad_two_digits by assumption.
  intros [= H1 H2].
  assert (a / 10 = b / 10) by (Z.div_mod_to_equations; lia).
  assert (a mod 10 = b mod 10) by (Z.div_mod_to_equations; lia).
  Z.div_mod_to_equations; lia.
Qed.

Section DatesFacts.
Variable localDate : jsstring -> option (Z * Z * Z).

Lemma isSameDay_iff (a b : jsstring) :
  isSameDay localDate a b = true
  <-> exists ymd, localDate a = Some ymd /\ localDate b = Some ymd.
Proof.
  unfold isSameDay, getFullYear, getMonth, getDate, numEq.
  destruct (localDate a) as [[[y m] d]|], (localDate b) as [[[y' m'] d']|];
    simpl; split; try discriminate;
    try (intros (ymd & H1 & H2); discriminate).
  - rewrite !andb_true_iff, !Z.eqb_eq. intros [[-> ->] ->]. eauto.
  - intros (ymd & [= <-] & [= -> -> ->]). now rewrite !Z.eqb_refl.
Qed.

Lemma isSameDay_sym (a b : jsstring) :
  isSameDay localDate a b = isSameDay localDate b a.
Proof.
  apply eq_true_iff_eq. rewrite !isSameDay_iff.
  split; intros (ymd & H1 & H2); eauto.
Qed.

Lemma isSameDay_trans (a b c : jsstring) :
  isSameDay localDate a b = true -> isSameDay localDate b c = true ->
  isSameDay localDate a c = true.
Proof.
  rewrite !isSameDay_iff.
  intros (ymd & H1 & H2) (ymd' & H3 & H4). exists ymd. split; congruence.
Qed.

Lemma isSameDay_congr (a b x : jsstring) :
  localDate a = localDate b ->
  isSameDay localDate a x = isSameDay localDate b x.
Proof.
  intros H. unfold isSameDay, getFullYear, getMonth, getDate. now rewrite H.
Qed.

Lemma dayLabel_congr (nowISO yesterdayISO a b : jsstring) :
  localDate a = localDate b ->
  dayLabel localDate nowISO yesterdayISO a = dayLabel localDate nowISO yesterdayISO b.
Proof.
  intros H. unfold dayLabel.
  rewrite !(isSameDay_congr a b _ H).
  unfold getFullYear, getMonth, getDate. now rewrite H.
Qed.

End DatesFacts.

(** X2: [isSameDay] holds exactly when both timestamps parse to the same
    local year, month and day.  It is symmetric and transitive, but
    reflexive only on valid timestamps: for an Invalid Date the getters
    return NaN and a timestamp is not even the same day as itself. *)
Theorem isSameDay_partial_equivalence (localDate : jsstring -> option (Z * Z * Z)) :
  (forall a b, isSameDay localDate a b = true
               <-> exists ymd, localDate a = Some ymd /\ localDate b = Some ymd)
  /\ (forall a b, isSameDay localDate a b = isSameDay localDate b a)
  /\ (forall a b c, isSameDay localDate a b = true ->
                    isSameDay localDate b c = true ->
                    isSameDay localDate a c = true)
  /\ (forall a, isSameDay localDate a a = true <-> validDate localDate a)
  /\ (forall a b, localDate a = None -> isSameDay localDate a b = false).
Proof.
  split; [apply isSameDay_iff|]. split; [|split; [|split]].
  - apply isSameDay_sym.
  - apply isSameDay_trans.
  - intros a. rewrite isSameDay_iff. unfold validDate. split.
    + intros (ymd & H & _). congruence.
    + destruct (localDate a) as [ymd|]; [eauto | congruence].
  - intros a b Ha. apply not_true_is_false. rewrite isSameDay_iff.
    intros (ymd & H & _). congruence.
Qed.

Lemma Lit_Today_codes : Lit.Today = [84; 111; 100; 97; 121]%N.
Proof. reflexivity. Qed.

Lemma Lit_Yesterday_codes :
  Lit.Yesterday = [89; 101; 115; 116; 101; 114; 100; 97; 121]%N.
Proof. reflexivity. Qed.

Lemma Lit_NaN_codes : Lit.NaN = [78; 97; 78]%N.
Proof. reflexivity. Qed.

(** The dd/mm/yyyy branch for a date whose month and day are in range. *)
Lemma formatted_shape (y m d : Z) :
  0 <= m <= 11 -> 1 <= d <= 31 ->
  pad (Some d) ++ [47%N] ++ pad (Some (m + 1)) ++ [47%N] ++ numToString (Some y)
  = [(48 + Z.to_N (d / 10))%N; (48 + Z.to_N (d mod 10))%N; 47%N;
     (48 + Z.to_N ((m + 1) / 10))%N; (48 + Z.to_N ((m + 1) mod 10))%N; 47%N]
    ++ numToString (Some y).
Proof.
  intros Hm Hd. rewrite !pad_two_digits by lia. reflexivity.
Qed.

Lemma formatted_inj (y m d y' m' d' : Z) :
  0 <= m <= 11 -> 1 <= d <= 31 -> 0 <= m' <= 11 -> 1 <= d' <= 31 ->
  pad (Some d) ++ [47%N] ++ pad (Some (m + 1)) ++ [47%N] ++ numToString (Some y)
  = pad (Some d') ++ [47%N] ++ pad (Some (m' + 1)) ++ [47%N] ++ numToString (Some y') ->
  (y, m, d) = (y', m', d').
Proof.
  intros Hm Hd Hm' Hd' H.
  rewrite !formatted_shape in H by assumption.
  injection H as H1 H2 H3 H4 Hy.
  apply numToString_inj in Hy.
  assert (d = d') by (Z.div_mod_to_equations; lia).
  assert (m = m') by (Z.div_mod_to_equations; lia).
  congruence.
Qed.

Lemma formatted_not_word (y m d : Z) (w : jsstring) :
  0 <= m <= 11 -> 1 <= d <= 31 ->
  w = Lit.Today \/ w = Lit.Yesterday ->
  pad (Some d) ++ [47%N] ++ pad (Some (m + 1)) ++ [47%N] ++ numToString (Some y) <> w.
Proof.
  intros Hm Hd Hw H. rewrite formatted_shape in H by assumption.
  destruct Hw as [-> | ->];
    [rewrite Lit_Today_codes in H | rewrite Lit_Yesterday_codes in H];
    injection H as H1 _; Z.div_mod_to_equations; lia.
Qed.

Lemma dayLabel_valid (localDate : jsstring -> option (Z * Z * Z))
    (nowISO yesterdayISO a : jsstring) (y m d : Z) :
  localDate a = Some (y, m, d) ->
  dayLabel localDate nowISO yesterdayISO a =
  if isSameDay localDate a nowISO then Lit.Today
  else if isSameDay localDate a yesterdayISO then Lit.Yesterday
  else pad (Some d) ++ [47%N] ++ pad (Some (m + 1)) ++ [47%N]
       ++ numToString (Some y).
Proof.
  intros H. unfold dayLabel, getFullYear, getMonth, getDate. now rewrite H.
Qed.

Lemma dayLabel_invalid (localDate : jsstring -> option (Z * Z * Z))
    (nowISO yesterdayISO a : jsstring) :
  localDate a = None ->
  dayLabel localDate nowISO yesterdayISO a
  = Lit.NaN ++ [47%N] ++ Lit.NaN ++ [47%N] ++ Lit.NaN.
Proof.
  intros H. unfold dayLabel, isSameDay, getFullYear, getMonth, getDate.
  now rewrite H.
Qed.

Lemma dayLabel_separates (localDate : jsstring -> option (Z * Z * Z))
    (nowISO yesterdayISO a b : jsstring) :
  datesInRange localDate ->
  validDate localDate a -> validDate localDate b ->
  dayLabel localDate nowISO yesterdayISO a = dayLabel localDate nowISO yesterdayISO b
  <-> isSameDay localDate a b = true.
Proof.
  intros Hrange Ha Hb. unfold validDate in *.
  destruct (localDate a) as [[[y m] d]|] eqn:Ea; [|congruence].
  destruct (localDate b) as [[[y' m'] d']|] eqn:Eb; [|congruence].
  destruct (Hrange _ _ _ _ Ea) as [Hm Hd].
  destruct (Hrange _ _ _ _ Eb) as [Hm' Hd'].
  split.
  - rewrite (dayLabel_valid _ _ _ a y m d Ea), (dayLabel_valid _ _ _ b y' m' d' Eb).
    pose proof (isSameDay_sym localDate) as Hsym.
    pose proof (isSameDay_trans localDate) as Htrans.
    destruct (isSameDay localDate a nowISO) eqn:An;
      [|destruct (isSameDay localDate a yesterdayISO) eqn:Ay];
      (destruct (isSameDay localDate b nowISO) eqn:Bn;
       [|destruct (isSameDay localDate b yesterdayISO) eqn:By]);
      intros H.
    + apply (Htrans a nowISO b An). now rewrite Hsym.
    + rewrite Lit_Today_codes, Lit_Yesterday_codes in H. discriminate.
    + symmetry in H. apply formatted_not_word in H; [tauto| | |]; auto.
    + rewrite Lit_Today_codes, Lit_Yesterday_codes in H. discriminate.
    + apply (Htrans a yesterdayISO b Ay). now rewrite Hsym.
    + symmetry in H. apply formatted_not_word in H; [tauto| | |]; auto.
    + apply formatted_not_word in H; [tauto| | |]; auto.
    + apply formatted_not_word in H; [tauto| | |]; auto.
    + apply formatted_inj in H; try assumption.
      apply isSameDay_iff. exists (y, m, d). split; congruence.
  - intros H. apply isSameDay_iff in H. destruct H as (ymd & H1 & H2).
    apply dayLabel_congr. congruence.
Qed.

(** X3: on valid timestamps [dayLabel] identifies the local day: two
    timestamps get the same label exactly when [isSameDay] holds for them,
    whatever the clock says ("Today", "Yesterday" and dd/mm/yyyy never
    collide).  Every invalid timestamp gets the label "NaN/NaN/NaN". *)
Theorem dayLabel_identifies_day (localDate : jsstring -> option (Z * Z * Z))
    (nowISO yesterdayISO : jsstring) :
  datesInRange localDate ->
  (forall a b, validDate localDate a -> validDate localDate b ->
     (dayLabel localDate nowISO yesterdayISO a
      = dayLabel localDate nowISO yesterdayISO b
      <-> isSameDay localDate a b = true))
  /\ (forall a, localDate a = None ->
        dayLabel localDate nowISO yesterdayISO a
        = [78; 97; 78; 47; 78; 97; 78; 47; 78; 97; 78]%N).
Proof.
  intros Hrange. split.
  - intros a b. now apply dayLabel_separates.
  - intros a Ha. now rewrite dayLabel_invalid.
Qed.

Lemma dayLabel_identifies_day_witness :
  let localDate (s : jsstring) :=
    match s with
    | [y; m; d]%list =>
        if ((m <=? 11) && (1 <=? d) && (d <=? 31))%N
        then Some (Z.of_N y, Z.of_N m, Z.of_N d) else None
    | _ => None
    end in
  datesInRange localDate
  /\ dayLabel localDate [2024; 4; 10]%N [2024; 4; 9]%N [2024; 4; 10]%N = Lit.Today
  /\ dayLabel localDate [2024; 4; 10]%N [2024; 4; 9]%N [2024; 4; 9]%N = Lit.Yesterday
  /\ dayLabel localDate [2024; 4; 10]%N [2024; 4; 9]%N [2023; 11; 3]%N
     = [48; 51; 47; 49; 50; 47; 50; 48; 50; 51]%N
  /\ (dayLabel localDate [2024; 4; 10]%N [2024; 4; 9]%N [2023; 11; 3]%N
      = dayLabel localDate [2024; 4; 10]%N [2024; 4; 9]%N [2023; 11; 3]%N
      <-> isSameDay localDate [2023; 11; 3]%N [2023; 11; 3]%N = true).
Proof.
  cbv zeta.
  match goal with |- datesInRange ?f /\ _ =>
    assert (Hrange : datesInRange f) end.
  { intros s y m d H.
    destruct s as [|a [|b [|c [|? ?]]]]; try discriminate.
    destruct ((b <=? 11) && (1 <=? c) && (c <=? 31))%N eqn:E; [|discriminate].
    injection H as <- <- <-.
    apply andb_true_iff in E. destruct E as [E E3].
    apply andb_true_iff in E. destruct E as [E1 E2].
    apply N.leb_le in E1, E2, E3. lia. }
  split; [exact Hrange|].
  split; [reflexivity|]. split; [reflexivity|]. split; [reflexivity|].
  apply (dayLabel_identifies_day _ _ _ Hrange); unfold validDate; discriminate.
Defined.

(** ** Groups are maximal runs of one day *)

Lemma adjacentDaysDiffer_snoc (gs : list Group) (g : Group) :
  adjacentDaysDiffer (gs ++ [g])
  <-> adjacentDaysDiffer gs /\ (forall g0, last gs = Some g0 -> day g0 <> day g).
Proof.
  induction gs as [|g1 gs IH].
  - simpl. split; [intros _; split; [exact I | discriminate] | tauto].
  - destruct gs as [|g2 gs].
    + simpl. split.
      * intros [H _]. split; [exact I|]. now intros g0 [= <-].
      * intros [_ H]. split; [|exact I]. now apply H.
    + change (adjacentDaysDiffer ((g1 :: g2 :: gs) ++ [g]))
        with (day g1 <> day g2 /\ adjacentDaysDiffer ((g2 :: gs) ++ [g])).
      change (adjacentDaysDiffer (g1 :: g2 :: gs))
        with (day g1 <> day g2 /\ adjacentDaysDiffer (g2 :: gs)).
      change (last (g1 :: g2 :: gs)) with (last (g2 :: gs)).
      rewrite IH. tauto.
Qed.

Lemma adjacentDaysDiffer_lookup (gs : list Group) :
  adjacentDaysDiffer gs ->
  forall (i : nat) (g1 g2 : Group),
    gs !! i = Some g1 -> gs !! S i = Some g2 -> day g1 <> day g2.
Proof.
  induction gs as [|g gs IH]; intros Hadj i g1 g2 H1 H2; [discriminate|].
  destruct gs as [|g' gs]; [destruct i; discriminate|].
  destruct Hadj as [Hne Hadj].
  destruct i as [|i].
  - simpl in H1, H2. congruence.
  - apply (IH Hadj i g1 g2); assumption.
Qed.

Section GroupsRuns.
Variable dayLabel : jsstring -> jsstring.

Lemma groupsStep_adjacent (out out' : list Group) (m : Message) :
  Forall (wfGroup dayLabel) out -> adjacentDaysDiffer out ->
  groupsStep dayLabel out m = Some out' -> adjacentDaysDiffer out'.
Proof.
  intros Hwf Hadj. unfold groupsStep.
  destruct (last out) as [lst|] eqn:Hlast.
  - apply last_Some in Hlast. destruct Hlast as [front ->].
    apply Forall_app in Hwf. destruct Hwf as [_ Hlst].
    inversion Hlst as [|? ? [Hne Hlbl] _]; subst.
    destruct (items lst) as [|m0 rest] eqn:Hitems; [congruence|].
    inversion Hlbl as [|? ? Hm0 _]; subst.
    unfold jsstring_eqb.
    destruct (bool_decide_reflect (dayLabel (m_at m0) = dayLabel (m_at m)))
      as [Heq|Hneq]; simpl; intros [= <-].
    + rewrite removelast_last. apply adjacentDaysDiffer_snoc.
      apply adjacentDaysDiffer_snoc in Hadj. exact Hadj.
    + apply adjacentDaysDiffer_snoc. split; [exact Hadj|].
      intros g0. rewrite last_snoc. intros [= <-]. simpl. congruence.
  - apply last_None in Hlast. subst out. intros [= <-]. exact I.
Qed.

Lemma groupsFrom_runs (ms : list Message) :
  forall out, Forall (wfGroup dayLabel) out -> adjacentDaysDiffer out ->
  exists gs, groupsFrom dayLabel out ms = Some gs
             /\ Forall (wfGroup dayLabel) gs
             /\ concat (map items gs) = concat (map items out) ++ ms
             /\ adjacentDaysDiffer gs.
Proof.
  induction ms as [|m ms IH]; intros out Hwf Hadj.
  - exists out. simpl. rewrite app_nil_r. auto.
  - destruct (groupsStep_ok dayLabel out m Hwf) as (out1 & Hstep & Hwf1 & Hcat1).
    pose proof (groupsStep_adjacent out out1 m Hwf Hadj Hstep) as Hadj1.
    destruct (IH out1 Hwf1 Hadj1) as (gs & Hgs & Hwfgs & Hcat & Hadjgs).
    exists gs. split; [|split; [exact Hwfgs|split; [|exact Hadjgs]]].
    + unfold groupsFrom in *. simpl. rewrite Hstep. exact Hgs.
    + rewrite Hcat, Hcat1, <- app_assoc. reflexivity.
Qed.

Lemma groups_runs (ms : list Message) :
  exists gs, groups dayLabel ms = Some gs
             /\ Forall (wfGroup dayLabel) gs
             /\ concat (map items gs) = ms
             /\ adjacentDaysDiffer gs.
Proof.
  destruct (groupsFrom_runs ms [] (List.Forall_nil _) I) as (gs & H). now exists gs.
Qed.

End GroupsRuns.

(** X4: the day groups are maximal runs: two groups next to each other
    never carry the same day label, and the label of a group is the label
    of its first message. *)
Theorem groups_maximal_runs (dayLabel : jsstring -> jsstring)
    (ms : list Message) :
  exists gs, groups dayLabel ms = Some gs
    /\ adjacentDaysDiffer gs
    /\ Forall (fun g => exists m rest, items g = m :: rest
                                       /\ day g = dayLabel (m_at m)) gs.
Proof.
  destruct (groups_runs dayLabel ms) as (gs & Hg & Hwf & _ & Hadj).
  exists gs. split; [exact Hg|]. split; [exact Hadj|].
  eapply List.Forall_impl; [|exact Hwf].
  intros g [Hne Hlbl]. destruct (items g) as [|m rest]; [congruence|].
  exists m, rest. split; [reflexivity|]. inversion Hlbl; subst. congruence.
Qed.

Example groups_same_day_twice :
  let mk a := {| m_id := []; m_sender := them; m_text := []; m_at := a;
                 m_status := None |} in
  option_map (map day) (groups (firstn 1) [mk [1; 2]; mk [2; 1]; mk [1; 1]]%N)
  = Some [[1]; [2]; [1]]%N.
Proof. reflexivity. Qed.

(** X5: with the component's own [dayLabel], and timestamps that all
    parse, the thread is grouped by calendar day: all messages of a group
    are the same local day, and a message of one group is never the same
    day as a message of the group that follows it. *)
Theorem groups_by_calendar_day (localDate : jsstring -> option (Z * Z * Z))
    (nowISO yesterdayISO : jsstring) (ms : list Message) :
  datesInRange localDate ->
  Forall (fun m => validDate localDate (m_at m)) ms ->
  exists gs,
    groups (dayLabel localDate nowISO yesterdayISO) ms = Some gs
    /\ concat (map items gs) = ms
    /\ Forall (fun g => forall a b, In a (items g) -> In b (items g) ->
                 isSameDay localDate (m_at a) (m_at b) = true) gs
    /\ (forall i g1 g2 a b,
          gs !! i = Some g1 -> gs !! S i = Some g2 ->
          In a (items g1) -> In b (items g2) ->
          isSameDay localDate (m_at a) (m_at b) = false).
Proof.
  intros Hrange Hvalid.
  destruct (groups_runs (dayLabel localDate nowISO yesterdayISO) ms)
    as (gs & Hg & Hwf & Hcat & Hadj).
  exists gs. split; [exact Hg|]. split; [exact Hcat|].
  assert (Hin : forall g a, In g gs -> In a (items g) ->
                  validDate localDate (m_at a)
                  /\ dayLabel localDate nowISO yesterdayISO (m_at a) = day g).
  { intros g a Hgin Ha. split.
    - rewrite List.Forall_forall in Hvalid. apply Hvalid.
      rewrite <- Hcat. apply in_concat. exists (items g). split; [|exact Ha].
      now apply in_map.
    - rewrite List.Forall_forall in Hwf. destruct (Hwf g Hgin) as [_ Hl].
      rewrite List.Forall_forall in Hl. now apply Hl. }
  split.
  - apply List.Forall_forall. intros g Hgin a b Ha Hb.
    destruct (Hin g a Hgin Ha) as [Va La], (Hin g b Hgin Hb) as [Vb Lb].
    apply (dayLabel_separates localDate nowISO yesterdayISO); try assumption.
    congruence.
  - intros i g1 g2 a b H1 H2 Ha Hb.
    pose proof (adjacentDaysDiffer_lookup gs Hadj i g1 g2 H1 H2) as Hne.
    assert (Hg1 : In g1 gs) by (eapply list_elem_of_In, list_elem_of_lookup_2; eauto).
    assert (Hg2 : In g2 gs) by (eapply list_elem_of_In, list_elem_of_lookup_2; eauto).
    destruct (Hin g1 a Hg1 Ha) as [Va La], (Hin g2 b Hg2 Hb) as [Vb Lb].
    apply not_true_is_false. intros Hsame.
    apply (dayLabel_separates localDate nowISO yesterdayISO) in Hsame;
      try assumption.
    congruence.
Qed.

Ltac solve_toy_calendar_range :=
  let s := fresh "s" in let H := fresh "H" in let E := fresh "E" in
  intros s ? ? ? H;
  destruct s as [|? [|?b [|?c [|? ?]]]]; try discriminate;
  match type of H with
  | (if ?t then _ else _) = _ => destruct t eqn:E; [|discriminate]
  end;
  injection H as <- <- <-;
  repeat (apply andb_true_iff in E; destruct E as [E ?]);
  repeat match goal with
         | Hle : (_ <=? _)%N = true |- _ => apply N.leb_le in Hle
         end;
  lia.

Lemma groups_by_calendar_day_witness :
  let localDate (s : jsstring) :=
    match s with
    | [y; m; d]%list =>
        if ((m <=? 11) && (1 <=? d) && (d <=? 31))%N
        then Some (Z.of_N y, Z.of_N m, Z.of_N d) else None
    | _ => None
    end in
  let mk a := {| m_id := []; m_sender := them; m_text := []; m_at := a;
                 m_status := None |} in
  let ms := [mk [2024; 4; 9]; mk [2024; 4; 9]; mk [2024; 4; 10]]%N in
  datesInRange localDate
  /\ Forall (fun m => validDate localDate (m_at m)) ms
  /\ exists gs,
       groups (dayLabel localDate [2024; 4; 10]%N [2024; 4; 9]%N) ms = Some gs
       /\ concat (map items gs) = ms
       /\ map day gs = [Lit.Yesterday; Lit.Today].
Proof.
  cbv zeta.
  match goal with |- datesInRange ?f /\ Forall _ ?l /\ _ =>
    assert (Hrange : datesInRange f) by solve_toy_calendar_range;
    assert (Hvalid : Forall (fun m => validDate f (m_at m)) l)
      by (repeat constructor; discriminate);
    destruct (groups_by_calendar_day f [2024; 4; 10]%N [2024; 4; 9]%N l
                Hrange Hvalid) as (gs & Hg & Hcat & _)
  end.
  split; [exact Hrange|]. split; [exact Hvalid|].
  exists gs. split; [exact Hg|]. split; [exact Hcat|].
  vm_compute in Hg. injection Hg as <-. reflexivity.
Defined.

(** ** What the send handler stores *)

Lemma trimStart_head (s : jsstring) (c : N) (r : jsstring) :
  trimStart s = c :: r -> isWhiteSpace c = false.
Proof.
  induction s as [|x s IH]; simpl; [discriminate|].
  destruct (isWhiteSpace x) eqn:E; [exact IH|]. now intros [= <- <-].
Qed.

Lemma trimStart_fixed (c : N) (r : jsstring) :
  isWhiteSpace c = false -> trimStart (c :: r) = c :: r.
Proof. intros H. simpl. now rewrite H. Qed.

Lemma trimStart_suffix (s : jsstring) : exists p, s = p ++ trimStart s.
Proof.
  induction s as [|x s [p IH]]; [now exists []|]. simpl.
  destruct (isWhiteSpace x).
  - exists (x :: p). simpl. now f_equal.
  - now exists [].
Qed.

Lemma trimStart_idem (s : jsstring) : trimStart (trimStart s) = trimStart s.
Proof.
  destruct (trimStart s) as [|c r] eqn:E; [reflexivity|].
  apply trimStart_fixed. eapply trimStart_head. exact E.
Qed.

(** A non-empty trimmed text starts and ends with a character that is not
    white space. *)
Lemma trim_ends (s : jsstring) :
  trim s <> [] ->
  exists c mid z, isWhiteSpace c = false /\ isWhiteSpace z = false
                  /\ (trim s = c :: mid /\ exists front, trim s = front ++ [z]).
Proof.
  unfold trim, trimEnd. intros Hne.
  destruct (trimStart s) as [|c r] eqn:Et; [now simpl in Hne|].
  pose proof (trimStart_head s c r Et) as Hc.
  destruct (trimStart (rev (c :: r))) as [|z u] eqn:Eu; [now simpl in Hne|].
  pose proof (trimStart_head _ z u Eu) as Hz.
  destruct (trimStart_suffix (rev (c :: r))) as [p Hp].
  rewrite Eu in Hp. simpl in Hp.
  assert (Hlast : exists u', z :: u = u' ++ [c]).
  { destruct (exists_last (l := z :: u)) as (u' & x & Hx); [discriminate|].
    exists u'. rewrite Hx in Hp |- *. rewrite app_assoc in Hp.
    apply app_inj_tail in Hp. destruct Hp as [_ ->]. reflexivity. }
  destruct Hlast as [u' Hu'].
  exists c, (rev u'), z. split; [exact Hc|]. split; [exact Hz|]. split.
  - rewrite Hu', rev_app_distr. reflexivity.
  - exists (rev u). reflexivity.
Qed.

Lemma trim_idem (s : jsstring) : trim (trim s) = trim s.
Proof.
  destruct (trim s) as [|c0 r0] eqn:E; [reflexivity|].
  assert (Hne : trim s <> []) by (rewrite E; discriminate).
  destruct (trim_ends s Hne) as (c & mid & z & Hc & Hz & H1 & front & H2).
  rewrite E in H1, H2. unfold trim, trimEnd.
  rewrite H1 at 1. rewrite (trimStart_fixed c mid Hc), <- H1, H2.
  rewrite rev_app_distr. simpl. rewrite Hz. simpl.
  rewrite rev_involutive. reflexivity.
Qed.

Lemma handleSend_chats (uuid now : jsstring) (st : UIState) :
  chats (snd (handleSend uuid now st)) =
  match trim (newMessage st) with
  | [] => chats st
  | t => map (appendMessage (selectedId st) (mkMessage uuid now t)) (chats st)
  end.
Proof. unfold handleSend. destruct (trim (newMessage st)); reflexivity. Qed.

Lemma handleSend_selectedId (uuid now : jsstring) (st : UIState) :
  selectedId (snd (handleSend uuid now st)) = selectedId st.
Proof. unfold handleSend. destruct (trim (newMessage st)); reflexivity. Qed.

Lemma handleSend_query (uuid now : jsstring) (st : UIState) :
  query (snd (handleSend uuid now st)) = query st.
Proof. unfold handleSend. destruct (trim (newMessage st)); reflexivity. Qed.

Lemma Forall2_map_self {A} (R : A -> A -> Prop) (f : A -> A) (l : list A) :
  (forall x, R x (f x)) -> Forall2 R l (map f l).
Proof. intros H. induction l; simpl; constructor; auto. Qed.

Lemma find_none_map_appendMessage (sel : Z) (m : Message) (cs : list Chat) :
  List.find (fun c => c_id c =? sel) cs = None ->
  map (appendMessage sel m) cs = cs.
Proof.
  induction cs as [|c cs IH]; [reflexivity|]. simpl.
  destruct (c_id c =? sel) eqn:E; [discriminate|].
  intros H. rewrite (IH H). unfold appendMessage. now rewrite E.
Qed.

(** X6: [handleSend] touches nothing but the selected chat's messages and
    the composer.  Query and selection are kept; every chat keeps its id,
    name, avatar, online flag, pinned flag and unread count; a chat with the
    selected id gains the one new message at the end and every other chat
    keeps its messages.  When no chat has the selected id the chat list is
    unchanged, yet a non-blank text still clears the composer: the text is
    dropped. *)
Theorem handleSend_frame (uuid now : jsstring) (st : UIState) :
  let st' := snd (handleSend uuid now st) in
  let sentNow := match trim (newMessage st) with
                 | [] => []
                 | t => [mkMessage uuid now t]
                 end in
  query st' = query st /\ selectedId st' = selectedId st
  /\ Forall2 (fun c c' =>
        c_id c' = c_id c /\ c_name c' = c_name c /\ c_avatar c' = c_avatar c
        /\ c_online c' = c_online c /\ c_pinned c' = c_pinned c
        /\ c_unread c' = c_unread c
        /\ c_messages c' =
           c_messages c ++ (if c_id c =? selectedId st then sentNow else []))
      (chats st) (chats st')
  /\ (selectedChat st = None -> chats st' = chats st)
  /\ (trim (newMessage st) <> [] -> newMessage st' = [] /\ isTyping st' = false).
Proof.
  cbv zeta.
  split; [apply handleSend_query|]. split; [apply handleSend_selectedId|].
  rewrite handleSend_chats. split; [|split].
  - destruct (trim (newMessage st)) as [|t ts].
    + rewrite <- (map_id (chats st)) at 2. apply Forall2_map_self.
      intros c. destruct (c_id c =? selectedId st);
        repeat split; now rewrite app_nil_r.
    + apply Forall2_map_self. intros c. unfold appendMessage.
      destruct (c_id c =? selectedId st); simpl; repeat split.
      now rewrite app_nil_r.
  - intros Hnone. destruct (trim (newMessage st)); [reflexivity|].
    now apply find_none_map_appendMessage.
  - intros Hne. rewrite handleSend_nonblank by exact Hne. split; reflexivity.
Qed.

Example handleSend_drops_text_without_selection :
  let c := {| c_id := 1; c_name := [77]%N; c_avatar := None; c_online := None;
              c_pinned := None; c_unread := None; c_messages := [] |} in
  let st := {| query := []; chats := [c]; selectedId := 7;
               newMessage := [104; 105]%N; isTyping := true |} in
  snd (handleSend [49]%N [50]%N st)
  = {| query := []; chats := [c]; selectedId := 7; newMessage := [];
       isTyping := false |}.
Proof. reflexivity. Qed.

(** X7: [handleSend] never stores a blank or untrimmed text.  Every
    message found in a chat after the call was there before, or it is the
    new message: sent by "me", status "sent", with a non-empty text that is
    the trimmed composer text and is unchanged by trimming again. *)
Theorem handleSend_stores_trimmed_text (uuid now : jsstring) (st : UIState)
    (c' : Chat) (m : Message) :
  In c' (chats (snd (handleSend uuid now st))) ->
  In m (c_messages c') ->
  (exists c, In c (chats st) /\ c_id c = c_id c' /\ In m (c_messages c))
  \/ (m = mkMessage uuid now (trim (newMessage st))
      /\ m_sender m = me /\ m_status m = Some sent
      /\ m_text m <> [] /\ trim (m_text m) = m_text m
      /\ c_id c' = selectedId st).
Proof.
  rewrite handleSend_chats.
  destruct (trim (newMessage st)) as [|t ts] eqn:Et.
  - intros Hc Hm. left. exists c'. auto.
  - intros Hc Hm. apply in_map_iff in Hc. destruct Hc as (c & <- & Hc).
    unfold appendMessage in Hm |- *.
    destruct (c_id c =? selectedId st) eqn:E; simpl in *.
    + apply in_app_or in Hm. destruct Hm as [Hm|[<-|[]]].
      * left. exists c. auto.
      * right. simpl. repeat split; try discriminate.
        -- rewrite <- Et. apply trim_idem.
        -- now apply Z.eqb_eq.
    + left. exists c. auto.
Qed.

Lemma handleSend_stores_trimmed_text_witness :
  let c := {| c_id := 1; c_name := [77]%N; c_avatar := None; c_online := None;
              c_pinned := None; c_unread := None; c_messages := [] |} in
  let st := {| query := []; chats := [c]; selectedId := 1;
               newMessage := [32; 104; 105; 32]%N; isTyping := true |} in
  let m := mkMessage [49]%N [50]%N [104; 105]%N in
  let c' := appendMessage 1 m c in
  In c' (chats (snd (handleSend [49]%N [50]%N st)))
  /\ In m (c_messages c')
  /\ m_text m = [104; 105]%N /\ trim (m_text m) = m_text m.
Proof.
  cbv zeta.
  match goal with |- In ?c' (chats (snd (handleSend ?u ?n ?st))) /\ In ?m _ /\ _ =>
    assert (H1 : In c' (chats (snd (handleSend u n st)))) by (left; reflexivity);
    assert (H2 : In m (c_messages c')) by (left; reflexivity);
    pose proof (handleSend_stores_trimmed_text u n st c' m H1 H2) as H
  end.
  split; [exact H1|]. split; [exact H2|]. split; [reflexivity|].
  destruct H as [(c & [<-|[]] & _ & [])|(_ & _ & _ & _ & Ht & _)]. exact Ht.
Defined.

Lemma chatPreview_appendMessage (sel : Z) (m : Message) (c : Chat) :
  chatPreview (appendMessage sel m c) =
  if c_id c =? sel then m_text m else chatPreview c.
Proof.
  unfold appendMessage, chatPreview.
  destruct (c_id c =? sel); [|reflexivity]. simpl. now rewrite last_snoc.
Qed.

(** X8: after a send with a non-blank text, the sidebar preview of every
    chat with the selected id is the trimmed text that was sent, and the
    preview of every other chat is what it was. *)
Theorem chatPreview_after_send (uuid now : jsstring) (st : UIState) :
  trim (newMessage st) <> [] ->
  Forall2 (fun c c' =>
     chatPreview c' = if c_id c =? selectedId st then trim (newMessage st)
                      else chatPreview c)
    (chats st) (chats (snd (handleSend uuid now st))).
Proof.
  intros Hne. rewrite handleSend_nonblank by exact Hne. simpl.
  apply Forall2_map_self. intros c. apply chatPreview_appendMessage.
Qed.

Lemma chatPreview_after_send_witness :
  let c1 := {| c_id := 1; c_name := [77]%N; c_avatar := None; c_online := None;
               c_pinned := None; c_unread := None; c_messages := [] |} in
  let c2 := {| c_id := 2; c_name := [76]%N; c_avatar := None; c_online := None;
               c_pinned := None; c_unread := None; c_messages := [] |} in
  let st := {| query := []; chats := [c1; c2]; selectedId := 1;
               newMessage := [32; 104; 105]%N; isTyping := true |} in
  trim (newMessage st) <> []
  /\ map chatPreview (chats st) = [Lit.StartAConversation; Lit.StartAConversation]
  /\ map chatPreview (chats (snd (handleSend [49]%N [50]%N st)))
     = [[104; 105]%N; Lit.StartAConversation].
Proof.
  cbv zeta.
  match goal with |- trim (newMessage ?st) <> [] /\ _ =>
    assert (Hne : trim (newMessage st) <> []) by discriminate;
    pose proof (chatPreview_after_send [49]%N [50]%N st Hne) as H
  end.
  split; [exact Hne|]. split; [reflexivity|].
  inversion H as [|? ? ? ? Ha Hrest]; subst.
  inversion Hrest as [|? ? ? ? Hb _]; subst.
  simpl map. rewrite Ha, Hb. reflexivity.
Defined.

Lemma clearUnreadChat_id (sel : Z) (c : Chat) :
  c_id (clearUnreadChat sel c) = c_id c.
Proof. unfold clearUnreadChat. destruct (c_id c =? sel); reflexivity. Qed.

(** X9: the two updaters of the chat list commute: clearing the unread
    count of one chat and appending a message to a chat give the same list
    in either order, so the order in which the queued updates are applied
    does not matter. *)
Theorem clearUnread_appendMessage_commute (a b : Z) (m : Message)
    (cs : list Chat) :
  clearUnread a (map (appendMessage b m) cs)
  = map (appendMessage b m) (clearUnread a cs).
Proof.
  unfold clearUnread. rewrite !map_map. apply map_ext. intros c.
  unfold clearUnreadChat, appendMessage.
  destruct (c_id c =? a) eqn:Ea, (c_id c =? b) eqn:Eb; simpl;
    rewrite ?Ea, ?Eb; reflexivity.
Qed.

(** ** The sidebar and the events of the component *)

Lemma filter_none {A} (f : A -> bool) (l : list A) :
  (forall x, In x l -> f x = false) -> List.filter f l = [].
Proof.
  induction l as [|x l IH]; intros H; [reflexivity|]. simpl.
  rewrite (H x) by now left. apply IH. intros y Hy. apply H. now right.
Qed.

Lemma filter_keeps {A} (f : A -> bool) (l : list A) :
  (forall x, In x l -> f x = true) -> List.filter f l = l.
Proof.
  induction l as [|x l IH]; intros H; [reflexivity|]. simpl.
  rewrite (H x) by now left. f_equal. apply IH. intros y Hy. apply H. now right.
Qed.

Section EventsFacts.
Variable toLowerCase : jsstring -> jsstring.

Lemma sections_eq (st : UIState) :
  pinnedSection toLowerCase st
  = List.filter (fun c => isPinned c && matchesQuery toLowerCase (query st) c)
                (chats st)
  /\ chatsSection toLowerCase st
     = List.filter (fun c => negb (isPinned c)
                             && matchesQuery toLowerCase (query st) c) (chats st).
Proof.
  unfold pinnedSection, chatsSection. rewrite filtered_eq, !List.filter_app.
  split.
  - rewrite (filter_keeps isPinned), (filter_none isPinned), app_nil_r;
      [reflexivity| |];
      intros x Hx; apply filter_In in Hx; destruct Hx as [_ Hx];
      apply andb_true_iff in Hx; destruct Hx as [Hx _];
      [now apply negb_true_iff in Hx | exact Hx].
  - rewrite (filter_none (fun c => negb (isPinned c))), (filter_keeps (fun c => negb (isPinned c)));
      [reflexivity| |];
      intros x Hx; apply filter_In in Hx; destruct Hx as [_ Hx];
      apply andb_true_iff in Hx; destruct Hx as [Hx _];
      [exact Hx | now rewrite Hx].
Qed.

Lemma sidebar_eq (st : UIState) :
  sidebar toLowerCase st = filtered toLowerCase (chats st) (query st).
Proof.
  unfold sidebar. destruct (sections_eq st) as [-> ->].
  symmetry. apply filtered_eq.
Qed.

Lemma sidebar_In (st : UIState) (c : Chat) :
  In c (sidebar toLowerCase st) -> In c (chats st).
Proof.
  rewrite sidebar_eq. unfold filtered. intros H.
  apply filter_In in H. destruct H as [H _].
  eapply Permutation_in; [apply sort_Permutation | exact H].
Qed.

Lemma handleSend_ids (uuid now : jsstring) (st : UIState) :
  map c_id (chats (snd (handleSend uuid now st))) = map c_id (chats st).
Proof.
  rewrite handleSend_chats. destruct (trim (newMessage st)); [reflexivity|].
  rewrite map_map. apply map_ext. intros c. apply appendMessage_id.
Qed.

Lemma clearUnread_ids (sel : Z) (cs : list Chat) :
  map c_id (clearUnread sel cs) = map c_id cs.
Proof.
  unfold clearUnread. rewrite map_map. apply map_ext.
  intros c. apply clearUnreadChat_id.
Qed.

Lemma uiStep_ids (st : UIState) (ev : UIEvent) :
  map c_id (chats (uiStep toLowerCase st ev)) = map c_id (chats st).
Proof.
  destruct ev as [v|uuid now|e uuid now|q|i]; simpl; try reflexivity.
  - apply handleSend_ids.
  - unfold onKeyDown. destruct (_ && _); [apply handleSend_ids | reflexivity].
  - destruct (nth_error (sidebar toLowerCase st) i) as [c|]; [|reflexivity].
    unfold selectChat. destruct (c_id c =? selectedId st); [reflexivity|].
    apply clearUnread_ids.
Qed.

Lemma uiStep_selected (st : UIState) (ev : UIEvent) :
  In (selectedId st) (map c_id (chats st)) ->
  In (selectedId (uiStep toLowerCase st ev)) (map c_id (chats st)).
Proof.
  intros Hin.
  destruct ev as [v|uuid now|e uuid now|q|i]; simpl; try exact Hin.
  - now rewrite handleSend_selectedId.
  - unfold onKeyDown. destruct (_ && _); [|exact Hin].
    simpl. now rewrite handleSend_selectedId.
  - destruct (nth_error (sidebar toLowerCase st) i) as [c|] eqn:E; [|exact Hin].
    unfold selectChat. destruct (c_id c =? selectedId st); [exact Hin|]. simpl.
    apply in_map, sidebar_In. eapply nth_error_In. exact E.
Qed.

Lemma uiRun_ids (evs : list UIEvent) :
  forall st, In (selectedId st) (map c_id (chats st)) ->
    map c_id (chats (uiRun toLowerCase st evs)) = map c_id (chats st)
    /\ In (selectedId (uiRun toLowerCase st evs)) (map c_id (chats st)).
Proof.
  induction evs as [|ev evs IH]; intros st Hin; [now split|].
  unfold uiRun in *. simpl.
  pose proof (uiStep_ids st ev) as Hids.
  pose proof (uiStep_selected st ev Hin) as Hsel.
  rewrite <- Hids in Hsel. destruct (IH _ Hsel) as [H1 H2].
  rewrite H1, Hids in *. now split.
Qed.

Lemma selectedChat_Some (st : UIState) :
  In (selectedId st) (map c_id (chats st)) ->
  exists c, selectedChat st = Some c /\ c_id c = selectedId st /\ In c (chats st).
Proof.
  intros Hin. apply in_map_iff in Hin. destruct Hin as (c & Hc & Hin).
  unfold selectedChat.
  destruct (List.find (fun c => c_id c =? selectedId st) (chats st)) as [c'|] eqn:E.
  - apply find_some in E. destruct E as [E1 E2]. apply Z.eqb_eq in E2. eauto.
  - apply (find_none _ _ E) in Hin. simpl in Hin. apply Z.eqb_neq in Hin. congruence.
Qed.

Lemma mount_selected (cs : list Chat) (st0 : UIState) :
  mount cs = Some st0 ->
  map c_id (chats st0) = map c_id cs
  /\ In (selectedId st0) (map c_id (chats st0)).
Proof.
  destruct cs as [|c cs]; [discriminate|]. intros [= <-].
  cbn [chats selectedId map]. rewrite clearUnreadChat_id, clearUnread_ids.
  split; [reflexivity|]. now left.
Qed.

Lemma uiStep_typing (st : UIState) (ev : UIEvent) :
  isTyping st = match newMessage st with [] => false | _ => true end ->
  isTyping (uiStep toLowerCase st ev)
  = match newMessage (uiStep toLowerCase st ev) with [] => false | _ => true end.
Proof.
  intros H.
  assert (Hsend : forall uuid now,
            isTyping (snd (handleSend uuid now st))
            = match newMessage (snd (handleSend uuid now st)) with
              | [] => false | _ => true end).
  { intros uuid now. unfold handleSend.
    destruct (trim (newMessage st)); [exact H | reflexivity]. }
  destruct ev as [v|uuid now|e uuid now|q|i]; simpl; auto.
  - unfold onKeyDown. destruct (_ && _); [apply Hsend | exact H].
  - destruct (nth_error (sidebar toLowerCase st) i) as [c|]; [|exact H].
    unfold selectChat. destruct (c_id c =? selectedId st); exact H.
Qed.

Lemma uiStep_unread (st : UIState) (ev : UIEvent) :
  Forall (fun c => c_id c = selectedId st -> c_unread c = Some 0) (chats st) ->
  Forall (fun c => c_id c = selectedId (uiStep toLowerCase st ev) ->
                   c_unread c = Some 0)
         (chats (uiStep toLowerCase st ev)).
Proof.
  intros H.
  assert (Hsend : forall uuid now,
            Forall (fun c => c_id c = selectedId (snd (handleSend uuid now st)) ->
                             c_unread c = Some 0)
                   (chats (snd (handleSend uuid now st)))).
  { intros uuid now. rewrite handleSend_selectedId, handleSend_chats.
    destruct (trim (newMessage st)); [exact H|].
    apply List.Forall_forall. intros c' Hc'. apply in_map_iff in Hc'.
    destruct Hc' as (c & <- & Hc). rewrite List.Forall_forall in H.
    rewrite appendMessage_id. intros Hid.
    unfold appendMessage. destruct (c_id c =? selectedId st); simpl; auto. }
  destruct ev as [v|uuid now|e uuid now|q|i]; simpl; auto.
  - unfold onKeyDown. destruct (_ && _); [apply Hsend | exact H].
  - destruct (nth_error (sidebar toLowerCase st) i) as [c0|]; [|exact H].
    unfold selectChat. destruct (c_id c0 =? selectedId st); [exact H|]. simpl.
    apply List.Forall_forall. intros c' Hc'. apply in_map_iff in Hc'.
    destruct Hc' as (c & <- & Hc). rewrite clearUnreadChat_id. intros Hid.
    unfold clearUnreadChat. apply Z.eqb_eq in Hid. now rewrite Hid.
Qed.

Lemma uiRun_typing_unread (evs : list UIEvent) :
  forall st,
    isTyping st = match newMessage st with [] => false | _ => true end ->
    Forall (fun c => c_id c = selectedId st -> c_unread c = Some 0) (chats st) ->
    let st' := uiRun toLowerCase st evs in
    isTyping st' = match newMessage st' with [] => false | _ => true end
    /\ Forall (fun c => c_id c = selectedId st' -> c_unread c = Some 0) (chats st').
Proof.
  induction evs as [|ev evs IH]; intros st Ht Hu; [now split|].
  apply (IH (uiStep toLowerCase st ev)).
  - now apply uiStep_typing.
  - now apply uiStep_unread.
Qed.

Lemma mount_typing_unread (cs : list Chat) (st0 : UIState) :
  mount cs = Some st0 ->
  isTyping st0 = match newMessage st0 with [] => false | _ => true end
  /\ Forall (fun c => c_id c = selectedId st0 -> c_unread c = Some 0) (chats st0).
Proof.
  destruct cs as [|c cs]; [discriminate|]. intros [= <-]. split; [reflexivity|].
  simpl. apply List.Forall_forall. intros c' Hc'.
  change (In c' (clearUnread (c_id c) (c :: cs))) in Hc'.
  apply in_map_iff in Hc'. destruct Hc' as (x & <- & _).
  rewrite clearUnreadChat_id. intros Hid.
  unfold clearUnreadChat. apply Z.eqb_eq in Hid. now rewrite Hid.
Qed.

End EventsFacts.

(** X10: the two sections of the sidebar, read from top to bottom, are
    exactly the filtered list: the "Pinned" section holds the matching
    pinned chats and the "Chats" section the matching unpinned ones, both
    in the order of the chat list, and no chat is shown twice or left out. *)
Theorem sidebar_shows_filtered (toLowerCase : jsstring -> jsstring)
    (st : UIState) :
  sidebar toLowerCase st = filtered toLowerCase (chats st) (query st)
  /\ pinnedSection toLowerCase st
     = List.filter (fun c => isPinned c && matchesQuery toLowerCase (query st) c)
                   (chats st)
  /\ chatsSection toLowerCase st
     = List.filter (fun c => negb (isPinned c)
                             && matchesQuery toLowerCase (query st) c) (chats st)
  /\ Permutation (sidebar toLowerCase st)
                 (List.filter (matchesQuery toLowerCase (query st)) (chats st)).
Proof.
  split; [apply sidebar_eq|]. split; [apply sections_eq|].
  split; [apply sections_eq|].
  rewrite sidebar_eq, filtered_eq. apply filter_split_Permutation.
Qed.

(** X11: no event adds, removes or reorders chats, and the selection always
    points at a chat of the list: after any sequence of events the ids of
    the chats are those the component was mounted with, and looking up the
    selected chat succeeds (the non-null assertion on it never fails). *)
Theorem selection_always_valid (toLowerCase : jsstring -> jsstring)
    (cs : list Chat) (st0 : UIState) (evs : list UIEvent) :
  mount cs = Some st0 ->
  map c_id (chats (uiRun toLowerCase st0 evs)) = map c_id cs
  /\ exists c, selectedChat (uiRun toLowerCase st0 evs) = Some c
               /\ c_id c = selectedId (uiRun toLowerCase st0 evs).
Proof.
  intros Hm. destruct (mount_selected cs st0 Hm) as [Hids Hsel].
  destruct (uiRun_ids toLowerCase evs st0 Hsel) as [H1 H2].
  split; [congruence|].
  rewrite <- H1 in H2.
  destruct (selectedChat_Some _ H2) as (c & Hc & Hid & _). eauto.
Qed.

Lemma selection_always_valid_witness :
  let mk i p u := {| c_id := i; c_name := [77]%N; c_avatar := None;
                     c_online := None; c_pinned := p; c_unread := u;
                     c_messages := [] |} in
  let cs := [mk 1 (Some true) (Some 2); mk 2 None (Some 3)] in
  let st0 := {| query := []; chats := [mk 1 (Some true) (Some 0); mk 2 None (Some 3)];
                selectedId := 1; newMessage := []; isTyping := false |} in
  let evs := [EvChange [104; 105]%N; EvSendClick [49]%N [50]%N; EvClickChat 1;
              EvKeyDown {| key := Lit.Enter; shiftKey := true |} [51]%N [52]%N] in
  mount cs = Some st0
  /\ map c_id (chats (uiRun (fun s => s) st0 evs)) = [1; 2]
  /\ selectedId (uiRun (fun s => s) st0 evs) = 2
  /\ exists c, selectedChat (uiRun (fun s => s) st0 evs) = Some c
               /\ c_id c = selectedId (uiRun (fun s => s) st0 evs).
Proof.
  cbv zeta.
  match goal with
  | |- mount ?cs = Some ?st0 /\ map c_id (chats (uiRun ?f _ ?evs)) = _ /\ _ =>
      pose proof (selection_always_valid f cs st0 evs eq_refl) as [H1 H2]
  end.
  split; [reflexivity|]. split; [exact H1|]. split; [reflexivity | exact H2].
Defined.

(** X12: the typing indicator tracks the composer: after any sequence of
    events the typing flag is set exactly when the composer text is not
    empty.  (A text of spaces keeps the indicator on although it cannot be
    sent.) *)
Theorem typing_flag_tracks_composer (toLowerCase : jsstring -> jsstring)
    (cs : list Chat) (st0 : UIState) (evs : list UIEvent) :
  mount cs = Some st0 ->
  isTyping (uiRun toLowerCase st0 evs)
  = match newMessage (uiRun toLowerCase st0 evs) with
    | [] => false
    | _ :: _ => true
    end.
Proof.
  intros Hm. destruct (mount_typing_unread cs st0 Hm) as [Ht Hu].
  apply (uiRun_typing_unread toLowerCase evs st0 Ht Hu).
Qed.

Lemma typing_flag_tracks_composer_witness :
  let c := {| c_id := 1; c_name := [77]%N; c_avatar := None; c_online := None;
              c_pinned := None; c_unread := Some 0; c_messages := [] |} in
  let st0 := {| query := []; chats := [c]; selectedId := 1; newMessage := [];
                isTyping := false |} in
  let evs := [EvChange [32; 32]%N; EvSendClick [49]%N [50]%N] in
  mount [c] = Some st0
  /\ newMessage (uiRun (fun s => s) st0 evs) = [32; 32]%N
  /\ isTyping (uiRun (fun s => s) st0 evs) = true.
Proof.
  cbv zeta.
  match goal with
  | |- mount ?cs = Some ?st0 /\ newMessage (uiRun ?f _ ?evs) = _ /\ _ =>
      pose proof (typing_flag_tracks_composer f cs st0 evs eq_refl) as H
  end.
  split; [reflexivity|]. split; [reflexivity|]. rewrite H. reflexivity.
Defined.



Lemma chatEvolved_refl (c : Chat) : chatEvolved c c.
Proof.
  unfold chatEvolved. repeat split; auto.
  exists []. now rewrite app_nil_r.
Qed.

Lemma chatEvolved_trans (a b c : Chat) :
  chatEvolved a b -> chatEvolved b c -> chatEvolved a c.
Proof.
  unfold chatEvolved.
  intros (A1 & A2 & A3 & A4 & A5 & (x & A6) & A7)
         (B1 & B2 & B3 & B4 & B5 & (y & B6) & B7).
  repeat split; try congruence.
  - exists (x ++ y). rewrite B6, A6, app_assoc. reflexivity.
  - destruct A7, B7; [left | right | right | right]; congruence.
Qed.

Lemma Forall2_trans_rel {A} (R : A -> A -> Prop) :
  (forall a b c, R a b -> R b c -> R a c) ->
  forall l1 l2 l3, Forall2 R l1 l2 -> Forall2 R l2 l3 -> Forall2 R l1 l3.
Proof.
  intros HR l1 l2 l3 H12. revert l3.
  induction H12 as [|a b l1 l2 Hab _ IH]; intros l3 H23;
    inversion H23; subst; constructor; eauto.
Qed.

Lemma Forall2_refl_rel {A} (R : A -> A -> Prop) (l : list A) :
  (forall a, R a a) -> Forall2 R l l.
Proof. intros HR. induction l; constructor; auto. Qed.

Lemma handleSend_evolves (uuid now : jsstring) (st : UIState) :
  Forall2 chatEvolved (chats st) (chats (snd (handleSend uuid now st))).
Proof.
  rewrite handleSend_chats. destruct (trim (newMessage st)) as [|t ts].
  - apply Forall2_refl_rel, chatEvolved_refl.
  - apply Forall2_map_self. intros c. unfold appendMessage.
    destruct (c_id c =? selectedId st); [|apply chatEvolved_refl].
    unfold chatEvolved. simpl. repeat split; eauto.
Qed.

Lemma uiStep_evolves (toLowerCase : jsstring -> jsstring)
    (st : UIState) (ev : UIEvent) :
  Forall2 chatEvolved (chats st) (chats (uiStep toLowerCase st ev)).
Proof.
  destruct ev as [v|uuid now|e uuid now|q|i]; simpl;
    try (apply Forall2_refl_rel, chatEvolved_refl).
  - apply handleSend_evolves.
  - unfold onKeyDown. destruct (_ && _);
      [apply handleSend_evolves | apply Forall2_refl_rel, chatEvolved_refl].
  - destruct (nth_error (sidebar toLowerCase st) i) as [c0|];
      [|apply Forall2_refl_rel, chatEvolved_refl].
    unfold selectChat. destruct (c_id c0 =? selectedId st);
      [apply Forall2_refl_rel, chatEvolved_refl|].
    simpl. apply Forall2_map_self. intros c. unfold clearUnreadChat.
    destruct (c_id c =? c_id c0); [|apply chatEvolved_refl].
    unfold chatEvolved. simpl. repeat split; auto.
    exists []. now rewrite app_nil_r.
Qed.

(** X14: chats only evolve: across any sequence of events, from any state,
    every chat keeps its position, id, name, avatar, online and pinned
    flags; its message list only grows at the end (no message is removed,
    changed or reordered); and its unread count is either what it was or 0. *)
Theorem chats_only_evolve (toLowerCase : jsstring -> jsstring)
    (st : UIState) (evs : list UIEvent) :
  Forall2 chatEvolved (chats st) (chats (uiRun toLowerCase st evs)).
Proof.
  revert st. induction evs as [|ev evs IH]; intros st.
  - apply Forall2_refl_rel, chatEvolved_refl.
  - apply (Forall2_trans_rel _ chatEvolved_trans _
             (chats (uiStep toLowerCase st ev))).
    + apply uiStep_evolves.
    + apply IH.
Qed.

(** * Properties of the client store and of the route guard *)

Lemma filter_idem {A} (f : A -> bool) (l : list A) :
  List.filter f (List.filter f l) = List.filter f l.
Proof.
  apply filter_keeps. intros x Hx. apply filter_In in Hx. tauto.
Qed.

Lemma jsstring_eqb_refl (a : jsstring) : jsstring_eqb a a = true.
Proof. unfold jsstring_eqb. now apply bool_decide_eq_true_2. Qed.

Lemma jsstring_eqb_eq (a b : jsstring) : jsstring_eqb a b = true <-> a = b.
Proof. unfold jsstring_eqb. apply bool_decide_eq_true. Qed.

Lemma upsert_over (c0 c : Store.Conversation) (s : Store.ChatState) :
  Store.cid c0 = Store.cid c ->
  Store.upsertConversation c (Store.upsertConversation c0 s)
  = Store.upsertConversation c s.
Proof.
  intros Hid. unfold Store.upsertConversation. simpl.
  rewrite Hid, jsstring_eqb_refl. simpl. rewrite filter_idem. reflexivity.
Qed.

(** X15: [upsertConversation] moves the conversation to the front and
    replaces any older version of it: afterwards the list starts with [c],
    holds no other conversation with [c]'s id, and keeps all conversations
    with other ids in their order.  Upserting over an earlier upsert of the
    same id is the same as upserting once (so it is idempotent), ids that
    were unique stay unique, and messages, cursors and typing sets are not
    touched. *)
Theorem upsertConversation_replaces (c : Store.Conversation) (s : Store.ChatState) :
  let s' := Store.upsertConversation c s in
  let sameId x := jsstring_eqb (Store.cid x) (Store.cid c) in
  head (Store.conversations s') = Some c
  /\ List.filter sameId (Store.conversations s') = [c]
  /\ List.filter (fun x => negb (sameId x)) (Store.conversations s')
     = List.filter (fun x => negb (sameId x)) (Store.conversations s)
  /\ (forall c0, Store.cid c0 = Store.cid c ->
        Store.upsertConversation c (Store.upsertConversation c0 s) = s')
  /\ Store.upsertConversation c s' = s'
  /\ (NoDup (map Store.cid (Store.conversations s)) ->
      NoDup (map Store.cid (Store.conversations s')))
  /\ Store.messages s' = Store.messages s
  /\ Store.cursors s' = Store.cursors s
  /\ Store.typing s' = Store.typing s.
Proof.
  cbv zeta. split; [reflexivity|]. split; [|split; [|split; [|split; [|split]]]].
  - simpl. rewrite jsstring_eqb_refl. f_equal.
    apply filter_none. intros x Hx. apply filter_In in Hx.
    destruct Hx as [_ Hx]. now apply negb_true_iff in Hx.
  - simpl. rewrite jsstring_eqb_refl. simpl. apply filter_idem.
  - intros c0. apply upsert_over.
  - now apply upsert_over.
  - intros Hnd. simpl. constructor.
    + intros Hin. apply list_elem_of_In, in_map_iff in Hin.
      destruct Hin as (x & Hx & Hin). apply filter_In in Hin.
      destruct Hin as [_ Hin]. apply negb_true_iff in Hin.
      rewrite Hx, jsstring_eqb_refl in Hin. discriminate.
    + now apply NoDup_map_filter.
  - auto.
Qed.

Example upsert_moves_to_front :
  let mk i n := {| Store.cid := i; Store.name := n; Store.participants := [];
                   Store.lastMessage := None; Store.unreadCount := None |} in
  let s := {| Store.conversations := [mk [1]%N None; mk [2]%N None; mk [3]%N None];
              Store.messages := ∅; Store.cursors := ∅; Store.typing := ∅ |} in
  Store.conversations (Store.upsertConversation (mk [2]%N (Some [65]%N)) s)
  = [mk [2]%N (Some [65]%N); mk [1]%N None; mk [3]%N None].
Proof. reflexivity. Qed.

Section StoreFacts.
Variable inherited : jsstring -> bool.

Lemma readOr_own {A} (obj : gmap jsstring A) (k : jsstring) (empty : A) :
  inherited k = false ->
  Store.readOr inherited obj k empty = Some (default empty (obj !! k)).
Proof.
  intros H. unfold Store.readOr. destruct (obj !! k); [reflexivity|].
  now rewrite H.
Qed.

Lemma addMessage_own (m : Store.Message) (s : Store.ChatState) :
  inherited (Store.conversationId m) = false ->
  Store.addMessage inherited m s =
  Some {| Store.conversations := Store.conversations s;
          Store.messages :=
            <[Store.conversationId m :=
                Store.messagesOf s (Store.conversationId m) ++ [m]]>
              (Store.messages s);
          Store.cursors := Store.cursors s; Store.typing := Store.typing s |}.
Proof.
  intros H. unfold Store.addMessage. now rewrite readOr_own.
Qed.

Lemma prependMessages_own (id : jsstring) (newItems : list Store.Message)
    (s : Store.ChatState) :
  inherited id = false ->
  Store.prependMessages inherited id newItems s =
  Some {| Store.conversations := Store.conversations s;
          Store.messages := <[id := newItems ++ Store.messagesOf s id]>
                              (Store.messages s);
          Store.cursors := Store.cursors s; Store.typing := Store.typing s |}.
Proof.
  intros H. unfold Store.prependMessages. now rewrite readOr_own.
Qed.

Lemma messagesOf_insert (s : Store.ChatState) (k k' : jsstring)
    (l : list Store.Message) :
  default [] (<[k := l]> (Store.messages s) !! k')
  = if jsstring_eqb k k' then l else Store.messagesOf s k'.
Proof.
  unfold Store.messagesOf, jsstring_eqb.
  destruct (bool_decide_reflect (k = k')) as [->|Hne].
  - now rewrite lookup_insert_eq.
  - now rewrite lookup_insert_ne.
Qed.

Lemma addMessages_spec (ms : list Store.Message) :
  forall s,
    Forall (fun m => inherited (Store.conversationId m) = false) ms ->
    exists s',
      Store.addMessages inherited ms s = Some s'
      /\ (forall k, Store.messagesOf s' k =
                    Store.messagesOf s k
                    ++ List.filter (fun m => jsstring_eqb (Store.conversationId m) k) ms)
      /\ Store.conversations s' = Store.conversations s
      /\ Store.cursors s' = Store.cursors s
      /\ Store.typing s' = Store.typing s.
Proof.
  induction ms as [|m ms IH]; intros s Hall.
  - exists s. repeat split; auto. intros k. now rewrite app_nil_r.
  - inversion Hall as [|? ? Hm Hrest]; subst.
    unfold Store.addMessages in *. simpl. rewrite (addMessage_own m s Hm).
    match goal with |- context [fold_left _ ms (Some ?s1)] =>
      destruct (IH s1 Hrest) as (s' & Hs' & Hmsgs & Hc & Hcu & Ht) end.
    exists s'. split; [exact Hs'|]. split; [|auto].
    intros k. rewrite Hmsgs. unfold Store.messagesOf at 1. simpl Store.messages.
    rewrite messagesOf_insert.
    destruct (jsstring_eqb (Store.conversationId m) k) eqn:E.
    + apply jsstring_eqb_eq in E. subst k. now rewrite <- app_assoc.
    + reflexivity.
Qed.

End StoreFacts.

(** X16: incoming messages are routed to their conversations in order of
    arrival: after [addMessage] has run for each message of a stream, the
    list of every conversation is its old list followed by the messages of
    the stream that carry its id, in the order they arrived; a conversation
    without a list starts from the empty one.  (The ids must not name an
    inherited member of Object.prototype.) *)
Theorem addMessages_routes_in_order (inherited : jsstring -> bool)
    (ms : list Store.Message) (s : Store.ChatState) :
  Forall (fun m => inherited (Store.conversationId m) = false) ms ->
  exists s',
    Store.addMessages inherited ms s = Some s'
    /\ (forall k, Store.messagesOf s' k =
                  Store.messagesOf s k
                  ++ List.filter (fun m => jsstring_eqb (Store.conversationId m) k) ms)
    /\ Store.conversations s' = Store.conversations s
    /\ Store.cursors s' = Store.cursors s
    /\ Store.typing s' = Store.typing s.
Proof. apply addMessages_spec. Qed.

Lemma addMessages_routes_in_order_witness :
  let inherited (k : jsstring) := jsstring_eqb k [99; 111; 110]%N in
  let mk i k := {| Store.mid := i; Store.conversationId := k;
                   Store.senderId := [117]%N; Store.text := None;
                   Store.createdAt := []; Store.status := Store.sent |} in
  let ms := [mk [1]%N [65]%N; mk [2]%N [66]%N; mk [3]%N [65]%N] in
  Forall (fun m => inherited (Store.conversationId m) = false) ms
  /\ exists s',
       Store.addMessages inherited ms Store.initial = Some s'
       /\ Store.messagesOf s' [65]%N = [mk [1]%N [65]%N; mk [3]%N [65]%N]
       /\ Store.messagesOf s' [66]%N = [mk [2]%N [66]%N].
Proof.
  cbv zeta.
  match goal with |- Forall ?P ?ms /\ _ =>
    assert (Hall : Forall P ms) by (repeat constructor)
  end.
  split; [exact Hall|].
  destruct (addMessages_routes_in_order _ _ Store.initial Hall)
    as (s' & Hs' & Hmsgs & _).
  exists s'. split; [exact Hs'|]. split; rewrite Hmsgs; reflexivity.
Defined.

Lemma messagesOf_literal (cv : list Store.Conversation)
    (M : gmap jsstring (list Store.Message))
    (cu : gmap jsstring (option jsstring)) (ty : gmap jsstring (gset jsstring))
    (k : jsstring) :
  Store.messagesOf {| Store.conversations := cv; Store.messages := M;
                      Store.cursors := cu; Store.typing := ty |} k
  = default [] (M !! k).
Proof. reflexivity. Qed.

(** X17: loading an older page and receiving a new message commute:
    [prependMessages] followed by [addMessage] gives the same store as
    [addMessage] followed by [prependMessages]; for the conversation of the
    page the list is the page, then the old list, then the new message when
    it belongs to that conversation. *)
Theorem prepend_add_commute (inherited : jsstring -> bool) (id : jsstring)
    (page : list Store.Message) (m : Store.Message) (s : Store.ChatState) :
  inherited id = false ->
  inherited (Store.conversationId m) = false ->
  exists s',
    (Store.prependMessages inherited id page s ≫= Store.addMessage inherited m)
    = Some s'
    /\ (Store.addMessage inherited m s ≫= Store.prependMessages inherited id page)
       = Some s'
    /\ Store.messagesOf s' id =
       page ++ Store.messagesOf s id
       ++ (if jsstring_eqb (Store.conversationId m) id then [m] else []).
Proof.
  intros Hid Hm.
  rewrite (prependMessages_own inherited id page s Hid).
  rewrite (addMessage_own inherited m s Hm).
  cbn [mbind option_bind].
  rewrite (addMessage_own inherited m _ Hm).
  rewrite (prependMessages_own inherited id page _ Hid).
  cbn [Store.conversations Store.messages Store.cursors Store.typing].
  rewrite !messagesOf_literal.
  destruct (decide (Store.conversationId m = id)) as [E|E].
  - rewrite E, !lookup_insert_eq, !insert_insert_eq, jsstring_eqb_refl.
    cbn [default from_option]. unfold Datatypes.id. rewrite <- !app_assoc.
    eexists. split; [reflexivity|]. split; [reflexivity|].
    rewrite messagesOf_literal, lookup_insert_eq. reflexivity.
  - rewrite (lookup_insert_ne _ id (Store.conversationId m)) by congruence.
    rewrite (lookup_insert_ne _ (Store.conversationId m) id) by congruence.
    rewrite (insert_insert_ne _ id (Store.conversationId m)) by congruence.
    assert (Hneq : jsstring_eqb (Store.conversationId m) id = false).
    { apply not_true_is_false. rewrite jsstring_eqb_eq. exact E. }
    rewrite Hneq, app_nil_r.
    eexists. split; [reflexivity|]. split; [reflexivity|].
    rewrite messagesOf_literal, lookup_insert_ne by exact E.
    rewrite lookup_insert_eq. reflexivity.
Qed.

Lemma prepend_add_commute_witness :
  let inherited (k : jsstring) := jsstring_eqb k [99; 111; 110]%N in
  let mk i := {| Store.mid := i; Store.conversationId := [65]%N;
                 Store.senderId := [117]%N; Store.text := None;
                 Store.createdAt := []; Store.status := Store.sent |} in
  let s := {| Store.conversations := [];
              Store.messages := {[ [65]%N := [mk [2]%N] ]};
              Store.cursors := ∅; Store.typing := ∅ |} in
  inherited [65]%N = false
  /\ exists s',
       (Store.prependMessages inherited [65]%N [mk [1]%N] s
          ≫= Store.addMessage inherited (mk [3]%N)) = Some s'
       /\ (Store.addMessage inherited (mk [3]%N) s
             ≫= Store.prependMessages inherited [65]%N [mk [1]%N]) = Some s'
       /\ Store.messagesOf s' [65]%N = [mk [1]%N; mk [2]%N; mk [3]%N].
Proof.
  cbv zeta. split; [reflexivity|].
  match goal with
  | |- exists s', (Store.prependMessages ?inh ?id ?pg ?s ≫= Store.addMessage _ ?m) = _ /\ _ =>
      destruct (prepend_add_commute inh id pg m s eq_refl eq_refl)
        as (s' & H1 & H2 & H3)
  end.
  exists s'. split; [exact H1|]. split; [exact H2|]. rewrite H3. reflexivity.
Defined.

Section TypingFacts.
Variable inherited : jsstring -> bool.

Lemma setTyping_own (id userId : jsstring) (b : bool) (s : Store.ChatState) :
  inherited id = false ->
  Store.setTyping inherited id userId b s =
  Some {| Store.conversations := Store.conversations s;
          Store.messages := Store.messages s;
          Store.cursors := Store.cursors s;
          Store.typing :=
            <[id := if b then Store.typingOf s id ∪ {[userId]}
                    else Store.typingOf s id ∖ {[userId]}]> (Store.typing s) |}.
Proof.
  intros H. unfold Store.setTyping. now rewrite readOr_own.
Qed.

Lemma typingOf_literal (cv : list Store.Conversation)
    (M : gmap jsstring (list Store.Message))
    (cu : gmap jsstring (option jsstring)) (ty : gmap jsstring (gset jsstring))
    (k : jsstring) :
  Store.typingOf {| Store.conversations := cv; Store.messages := M;
                    Store.cursors := cu; Store.typing := ty |} k
  = default ∅ (ty !! k).
Proof. reflexivity. Qed.

End TypingFacts.

(** X18: [setTyping] records who is typing.  Afterwards the user is in the
    conversation's set exactly when the flag was true, every other user and
    every other conversation is as before, and the rest of the store is
    untouched.  Repeating the same call changes nothing more, and a user
    who was not typing is back to the starting set after typing on then
    off. *)
Theorem setTyping_tracks_user (inherited : jsstring -> bool)
    (id userId : jsstring) (b : bool) (s : Store.ChatState) :
  inherited id = false ->
  exists s',
    Store.setTyping inherited id userId b s = Some s'
    /\ (forall v, v ∈ Store.typingOf s' id
                  <-> (if b then v = userId \/ v ∈ Store.typingOf s id
                       else v <> userId /\ v ∈ Store.typingOf s id))
    /\ (forall id', id' <> id -> Store.typingOf s' id' = Store.typingOf s id')
    /\ Store.conversations s' = Store.conversations s
    /\ Store.messages s' = Store.messages s
    /\ Store.cursors s' = Store.cursors s
    /\ Store.setTyping inherited id userId b s' = Some s'
    /\ (userId ∉ Store.typingOf s id ->
        exists s1 s2,
          Store.setTyping inherited id userId true s = Some s1
          /\ Store.setTyping inherited id userId false s1 = Some s2
          /\ Store.typingOf s2 id = Store.typingOf s id).
Proof.
  intros Hid. rewrite (setTyping_own inherited id userId b s Hid).
  eexists. split; [reflexivity|].
  split; [|split; [|split; [|split; [|split; [|split]]]]]; try reflexivity.
  - intros v. rewrite typingOf_literal, lookup_insert_eq. cbn [default from_option].
    unfold Datatypes.id. destruct b; set_solver.
  - intros id' Hne. rewrite typingOf_literal, lookup_insert_ne by congruence.
    reflexivity.
  - rewrite (setTyping_own inherited id userId b _ Hid).
    cbn [Store.conversations Store.messages Store.cursors Store.typing].
    rewrite typingOf_literal, lookup_insert_eq, insert_insert_eq.
    cbn [default from_option]. unfold Datatypes.id.
    do 2 f_equal. f_equal. destruct b; set_solver.
  - intros Hnot. rewrite (setTyping_own inherited id userId true s Hid).
    eexists. eexists. split; [reflexivity|].
    rewrite (setTyping_own inherited id userId false _ Hid).
    split; [reflexivity|].
    rewrite !typingOf_literal, !lookup_insert_eq.
    cbn [default from_option]. unfold Datatypes.id. set_solver.
Qed.

Lemma setTyping_tracks_user_witness :
  let inherited (k : jsstring) := jsstring_eqb k [99; 111; 110]%N in
  inherited [65]%N = false
  /\ exists s',
       Store.setTyping inherited [65]%N [117]%N true Store.initial = Some s'
       /\ ([117]%N ∈ Store.typingOf s' [65]%N)
       /\ Store.typingOf s' [66]%N = ∅.
Proof.
  cbv zeta. split; [reflexivity|].
  match goal with
  | |- exists s', Store.setTyping ?inh ?id ?u ?b ?s = _ /\ _ =>
      destruct (setTyping_tracks_user inh id u b s eq_refl)
        as (s' & H1 & H2 & H3 & _)
  end.
  exists s'. split; [exact H1|]. split.
  - apply H2. now left.
  - rewrite H3 by discriminate. reflexivity.
Defined.

(** ** The route guard *)

(** X19: the route guard redirects exactly the requests for a path that
    begins with /chats and that carry no session cookie or an empty one;
    everything else passes.  The redirect always goes to /login, and a
    request for /login passes whatever its cookie, so the guard cannot
    loop. *)
Theorem middleware_guards_chats (req : Middleware.Request) :
  (Middleware.middleware req = Middleware.Redirect Lit.loginPath
   <-> (exists rest, Middleware.pathname req = Lit.chatsPath ++ rest)
       /\ (Middleware.sessionCookie req = None
           \/ Middleware.sessionCookie req = Some []))
  /\ (Middleware.middleware req = Middleware.Next
      \/ Middleware.middleware req = Middleware.Redirect Lit.loginPath)
  /\ (forall cookie,
        Middleware.middleware
          {| Middleware.pathname := Lit.loginPath;
             Middleware.sessionCookie := cookie |} = Middleware.Next).
Proof.
  unfold Middleware.middleware, Middleware.PROTECTED.
  cbn [existsb]. rewrite orb_false_r.
  split; [|split].
  - destruct (startsWith (Middleware.pathname req) Lit.chatsPath) eqn:E;
      cbn [negb].
    + apply startsWith_inv in E.
      destruct (Middleware.sessionCookie req) as [[|c cs]|]; cbn [negb];
        split; try discriminate; auto.
      intros [_ [H|H]]; discriminate.
    + split; [discriminate|]. intros [[rest Hrest] _].
      rewrite Hrest, startsWith_app in E. discriminate.
  - destruct (startsWith (Middleware.pathname req) Lit.chatsPath);
      cbn [negb]; auto.
    destruct (Middleware.sessionCookie req) as [[|c cs]|]; cbn [negb]; auto.
  - intros cookie. reflexivity.
Qed.

Example middleware_prefix_not_segment :
  Middleware.middleware
    {| Middleware.pathname := Lit.chatsPath ++ [102; 111; 111]%N;
       Middleware.sessionCookie := Some [] |}
  = Middleware.Redirect Lit.loginPath.
Proof. reflexivity. Qed.
